(** * HTTP-Frequency: the probing engine of [py1.py]

    A shallow embedding of [fetch_one], [run_probe], [get_urls_from_input]
    and [print_report], with the asyncio event loop written out as a step
    function on the state of the tasks and of the semaphore.

    Conventions.
    - A Python [str] is a [string] holding its UTF-8 encoding.
    - A Python [int] is a [Z]; a Python [float] that is a time in seconds is
      a [Q] (every finite float is a rational and [<] on finite floats is
      [<] on rationals; the rounding of a float subtraction is not modelled).
    - [httpx], [asyncio], [time] and the console are the environment: what a
      request answers and what the clock reads is a parameter ([World]), what
      the user types is a list of lines. *)

From Stdlib Require Import ZArith QArith String Ascii List Lia DecimalString Sorted.
From stdpp Require Import base option list gmap strings relations.

Local Open Scope string_scope.
Local Open Scope list_scope.

(** ** Exceptions and fallible results *)

(** A raised Python exception: the name of its class, and whether
    [isinstance(e, httpx.HTTPError)] holds (the only test the source makes). *)
Record PyException := mkExn {
  class_name : string;
  is_HTTPError : bool
}.

Inductive result (A : Type) : Type :=
| Return (a : A)
| Raise (e : PyException).
Arguments Return {A} a.
Arguments Raise {A} e.

Definition ValueError : PyException := mkExn "ValueError" false.
Definition EOFError : PyException := mkExn "EOFError" false.

(** ** The data model *)

(** [class ProbeResult] (lines 9-17). *)
Record ProbeResult := mkProbeResult {
  url : string;
  ok : bool;
  status : option Z;
  elapsed_s : option Q;
  bytes_rcv : option Z;
  final_url : option string;
  error : option string
}.

(** ** The environment: httpx and the clock *)

(** [httpx.Response], the three attributes [fetch_one] reads. *)
Record Response := mkResponse {
  status_code : Z;
  content : option (list Byte.byte);
  response_url : string
}.

(** [httpx.Timeout(timeout, connect=..., read=...)]: the default fills the
    two phases that are not given. The constructor does not look at the sign. *)
Record Timeout := mkTimeout {
  connect : Q;
  read : Q;
  write : Q;
  pool : Q
}.

Definition httpx_Timeout (timeout connect read : Q) : Timeout :=
  mkTimeout connect read timeout timeout.

Record AsyncClient := mkClient {
  follow_redirects : bool;
  client_timeout : Timeout;
  headers : list (string * string)
}.

Inductive reply : Type :=
| Responds (r : Response)
| Raises (e : PyException).

(** What the outside world does during one run. [request c m u k] is what
    [await client.request(m, u)] gives to task number [k] (two tasks with the
    same URL may be answered differently); [perf_counter k n] is the [n]-th
    reading of [time.perf_counter()] made by task [k]. *)
Record World := mkWorld {
  request : AsyncClient -> string -> string -> nat -> reply;
  perf_counter : nat -> nat -> Q
}.

(** ** [fetch_one] (lines 20-44) *)

Definition fetch_one (w : World) (k : nat)
    (client : AsyncClient) (url : string) (method : string) : result ProbeResult :=
  let start := perf_counter w k 0 in
  match request w client method url k with
  | Responds r =>
      let elapsed := (perf_counter w k 1 - start)%Q in
      let body := match content r with Some b => b | None => [] end in
      Return {| url := url;
                ok := (status_code r <? 400)%Z;
                status := Some (status_code r);
                elapsed_s := Some elapsed;
                bytes_rcv := Some (Z.of_nat (length body));
                final_url := Some (response_url r);
                error := None |}
  | Raises e =>
      if is_HTTPError e then
        Return {| url := url;
                  ok := false;
                  status := None;
                  elapsed_s := None;
                  bytes_rcv := None;
                  final_url := None;
                  error := Some (class_name e) |}
      else Raise e
  end.

(** ** [run_probe] (lines 47-61): the event loop *)

(** [asyncio.Semaphore(value)]: the constructor refuses a negative value and
    accepts zero. The semaphore is its counter. *)
Definition Semaphore (value : Z) : result Z :=
  if (value <? 0)%Z then Raise ValueError else Return value.

(** The client of lines 50-54. *)
Definition make_client (timeout : Q) : AsyncClient :=
  {| follow_redirects := true;
     client_timeout := httpx_Timeout timeout timeout timeout;
     headers := [("User-Agent", "HTTP-Frequency/1.0")] |}.

(** Where a task created by [asyncio.create_task(bound_fetch(u))] stands:
    it has not entered [async with sem] yet, it holds a slot and awaits the
    answer to its request, or it is over, with the value [fetch_one] returned
    or with the exception that escaped it. *)
Inductive task : Type :=
| Waiting
| InFlight
| Done (r : ProbeResult)
| Failed (e : PyException).

(** The state of the loop: the counter of [sem], the tasks in the order of
    their creation, and the calls of [client.request] made so far (method and
    URL). *)
Record loop := mkLoop {
  sem_value : Z;
  tasks : list task;
  issued : list (string * string)
}.

Definition settle (r : result ProbeResult) : task :=
  match r with
  | Return p => Done p
  | Raise e => Failed e
  end.

(** The number of tasks that hold a slot of the semaphore. *)
Definition holds_slot (t : task) : nat :=
  match t with InFlight => 1 | _ => 0 end.

Definition in_flight (ts : list task) : nat :=
  sum_list (holds_slot <$> ts).

(** How [await asyncio.gather( *tasks)] ends. *)
Inductive run : Type :=
| Finished (r : result (list ProbeResult))
| Deadlock     (* gather waits and no task can move: it waits for ever *)
| OutOfFuel.   (* the bound on the number of moves was too small *)

(** [await asyncio.gather( *tasks)]: the exception of a failed task is raised
    as soon as there is one; with every task done the results come in the
    order of the tasks; otherwise gather keeps waiting. *)
Fixpoint first_exception (ts : list task) : option PyException :=
  match ts with
  | [] => None
  | Failed e :: _ => Some e
  | _ :: ts' => first_exception ts'
  end.

Definition task_result (t : task) : option ProbeResult :=
  match t with Done r => Some r | _ => None end.

Definition gather (ts : list task) : option (result (list ProbeResult)) :=
  match first_exception ts with
  | Some e => Some (Raise e)
  | None => Return <$> mapM task_result ts
  end.

Section EventLoop.
Variable w : World.
Variable client : AsyncClient.
Variable method : string.
Variable urls : list string.

(** [bound_fetch(u)] run by task [i], one move at a time. A waiting task
    enters [async with sem] when the counter is positive, takes a slot and
    sends its request; a task in flight receives its answer, [fetch_one]
    ends (by [return] or by an exception) and leaving [async with sem]
    gives the slot back either way. Nothing else can move. *)
Definition bound_fetch (i : nat) (u : string) (s : loop) : option loop :=
  match tasks s !! i with
  | Some Waiting =>
      if (0 <? sem_value s)%Z then
        Some {| sem_value := (sem_value s - 1)%Z;
                tasks := <[i := InFlight]> (tasks s);
                issued := issued s ++ [(method, u)] |}
      else None
  | Some InFlight =>
      Some {| sem_value := (sem_value s + 1)%Z;
              tasks := <[i := settle (fetch_one w i client u method)]> (tasks s);
              issued := issued s |}
  | _ => None
  end.

Definition advance (i : nat) (s : loop) : option loop :=
  match urls !! i with
  | Some u => bound_fetch i u s
  | None => None
  end.

(** One move of the loop: some task advances. Which one is up to the
    scheduler and to the order in which the answers arrive; asyncio wakes the
    tasks that wait for a slot in the order of their arrival, which is one of
    the orders allowed here. *)
Definition step (s s' : loop) : Prop := exists i, advance i s = Some s'.

(** [tasks = [create_task(bound_fetch(u)) for u in urls]] *)
Definition create_tasks (value : Z) : loop :=
  {| sem_value := value; tasks := (fun _ => Waiting) <$> urls; issued := [] |}.

(** The states a run with [Semaphore(concurrency)] can be in. *)
Definition reachable (concurrency : Z) (s : loop) : Prop :=
  exists value, Semaphore concurrency = Return value /\ rtc step (create_tasks value) s.

Definition enabled (s : loop) : list nat :=
  filter (fun i => is_Some (advance i s)) (seq 0 (length (tasks s))).

(** The loop, driven by a schedule: at move [t], [sched t] picks among the
    tasks that can move. *)
Fixpoint event_loop (sched : nat -> nat) (fuel t : nat) (s : loop) : run * loop :=
  match gather (tasks s) with
  | Some r => (Finished r, s)
  | None =>
      match enabled s with
      | [] => (Deadlock, s)
      | (i0 :: _) as en =>
          match fuel with
          | O => (OutOfFuel, s)
          | S fuel' =>
              let i := default i0 (en !! (sched t `mod` length en)) in
              match advance i s with
              | Some s' => event_loop sched fuel' (S t) s'
              | None => (Deadlock, s)
              end
          end
      end
  end.
End EventLoop.

(** [run_probe], with the final state of the loop. Each task moves twice, so
    twice the number of URLs bounds the moves. *)
Definition run_probe_loop (w : World) (sched : nat -> nat)
    (urls : list string) (concurrency : Z) (timeout : Q) (method : string) : run * loop :=
  match Semaphore concurrency with
  | Raise e => (Finished (Raise e), mkLoop concurrency [] [])
  | Return sem =>
      let client := make_client timeout in
      event_loop w client method urls sched (2 * length urls) 0 (create_tasks urls sem)
  end.

Definition run_probe (w : World) (sched : nat -> nat)
    (urls : list string) (concurrency : Z) (timeout : Q) (method : string) : run :=
  (run_probe_loop w sched urls concurrency timeout method).1.

(** The calls of [client.request] made during the run. *)
Definition requests_issued (w : World) (sched : nat -> nat)
    (urls : list string) (concurrency : Z) (timeout : Q) (method : string) : list (string * string) :=
  issued (run_probe_loop w sched urls concurrency timeout method).2.

(** ** Python strings *)

Definition newline : string := String "010" EmptyString.

Definition bytes_of (s : string) : list N := N_of_ascii <$> list_ascii_of_string s.
Definition of_bytes (bs : list N) : string := string_of_list_ascii (ascii_of_N <$> bs).

(** [len(s)]: the code points of [s], that is the bytes of its encoding that
    are not continuation bytes. *)
Definition py_len (s : string) : nat :=
  length (List.filter (fun b => negb ((128 <=? b) && (b <=? 191))%N) (bytes_of s)).

(** The number of bytes of the white space character (in the sense of
    [str.isspace]) that starts [bs], and 0 when there is none: U+0009-000D,
    U+001C-0020, U+0085, U+00A0, U+1680, U+2000-200A, U+2028, U+2029, U+202F,
    U+205F, U+3000. *)
Definition space_width (bs : list N) : nat :=
  match bs with
  | [] => 0
  | b :: rest =>
      if ((9 <=? b) && (b <=? 13) || (28 <=? b) && (b <=? 32))%N then 1
      else
        match b, rest with
        | 194%N, c :: _ => if ((c =? 133) || (c =? 160))%N then 2 else 0
        | 225%N, 154%N :: 128%N :: _ => 3
        | 226%N, 128%N :: c :: _ =>
            if ((128 <=? c) && (c <=? 138) || (c =? 168) || (c =? 169) || (c =? 175))%N
            then 3 else 0
        | 226%N, 129%N :: 159%N :: _ => 3
        | 227%N, 128%N :: 128%N :: _ => 3
        | _, _ => 0
        end
  end.

(** The same, for the white space character that ends the reversed [bs]. *)
Definition space_width_rev (bs : list N) : nat :=
  match bs with
  | [] => 0
  | b :: _ =>
      if (b <? 128)%N then space_width [b]
      else
        match bs with
        | c :: b1 :: rest =>
            if (b1 =? 194)%N then space_width [b1; c]
            else match rest with
                 | b0 :: _ => if (b0 <? 128)%N then 0 else space_width [b0; b1; c]
                 | [] => 0
                 end
        | _ => 0
        end
  end.

Fixpoint strip_left (width : list N -> nat) (skip : nat) (bs : list N) : list N :=
  match bs with
  | [] => []
  | _ :: rest =>
      match skip with
      | S k => strip_left width k rest
      | O => match width bs with
             | O => bs
             | S k => strip_left width k rest
             end
      end
  end.

(** [s.strip()] *)
Definition strip (s : string) : string :=
  of_bytes (rev (strip_left space_width_rev 0 (rev (strip_left space_width 0 (bytes_of s))))).

Definition startswith (s pre : string) : bool := String.prefix pre s.

(** [str(n)] for an [int], and for an [Optional[int]]. *)
Definition str_int (n : Z) : string := NilZero.string_of_int (Z.to_int n).

Definition str_optional_int (o : option Z) : string :=
  match o with
  | Some n => str_int n
  | None => "None"
  end.

Definition spaces (n : nat) : string := of_bytes (replicate n 32%N).

(** The format specifications [>w] and [<w]. *)
Definition align_right (width : nat) (s : string) : string := spaces (width - py_len s) +:+ s.
Definition align_left (width : nat) (s : string) : string := s +:+ spaces (width - py_len s).

(** ** [get_urls_from_input] (lines 64-85) *)

(** The console: the lines the user will type, and what was written so far
    (one entry for each write). *)
Record console := mkConsole {
  stdin : list string;
  stdout : list string
}.

Definition print (s : string) (c : console) : console :=
  {| stdin := stdin c; stdout := stdout c ++ [s +:+ newline] |}.

(** [input(prompt)]: at the end of the input it raises [EOFError]. *)
Definition input (prompt : string) (c : console) : result string * console :=
  match stdin c with
  | [] => (Raise EOFError, {| stdin := []; stdout := stdout c ++ [prompt] |})
  | l :: rest => (Return l, {| stdin := rest; stdout := stdout c ++ [prompt] |})
  end.

(** Lines 74-75. *)
Definition add_scheme (linha : string) : string :=
  if negb (startswith linha "http://" || startswith linha "https://")
  then "https://" +:+ linha
  else linha.

(** The loop of lines 69-76, by recursion on the lines still to be read:
    each turn calls [input("URL: ")] once. *)
Fixpoint read_urls (lines : list string) (out : list string) (urls : list string)
    : result (list string) * console :=
  match lines with
  | [] => (Raise EOFError, mkConsole [] (out ++ ["URL: "]))
  | l :: rest =>
      let out := out ++ ["URL: "] in
      let linha := strip l in
      if decide (linha = "") then (Return urls, mkConsole rest out)
      else read_urls rest out (urls ++ [add_scheme linha])
  end.

(** The loop of lines 79-84. *)
Fixpoint remove_duplicates (urls : list string) (seen : gset string) (uniq : list string)
    : list string :=
  match urls with
  | [] => uniq
  | u :: rest =>
      if decide (u ∈ seen) then remove_duplicates rest seen uniq
      else remove_duplicates rest ({[u]} ∪ seen) (uniq ++ [u])
  end.

Definition get_urls_from_input (c : console) : result (list string) * console :=
  let c := print "Digite as URLs que você quer testar." c in
  let c := print ("Uma por linha. Deixe em branco e aperte Enter para finalizar." +:+ newline) c in
  match read_urls (stdin c) (stdout c) [] with
  | (Return urls, c') => (Return (remove_duplicates urls ∅ []), c')
  | (Raise e, c') => (Raise e, c')
  end.

(** The list of the first occurrences, as the specification words it: an
    entry is kept and its later copies are removed. *)
Fixpoint first_occurrences (l : list string) : list string :=
  match l with
  | [] => []
  | x :: l' => x :: filter (fun y => y ≠ x) (first_occurrences l')
  end.

(** The scheme rule, as the specification words it. *)
Definition default_to_https (entry : string) : string :=
  if String.prefix "http://" entry then entry
  else if String.prefix "https://" entry then entry
  else "https://" +:+ entry.

(** ** [print_report] (lines 88-106) *)

Definition report_ok (results : list ProbeResult) : list ProbeResult :=
  List.filter (fun r => ok r && bool_decide (is_Some (elapsed_s r))) results.

Definition report_fail (results : list ProbeResult) : list ProbeResult :=
  List.filter (fun r => negb (ok r)) results.

(** The key of line 92. The entries of [report_ok] all have an [elapsed_s]. *)
Definition elapsed_key (r : ProbeResult) : Q := default 0%Q (elapsed_s r).

(** [sorted(ok, key=...)]: the stable ascending sort. *)
Fixpoint insert_by_key (x : ProbeResult) (l : list ProbeResult) : list ProbeResult :=
  match l with
  | [] => [x]
  | y :: l' =>
      if Qle_bool (elapsed_key x) (elapsed_key y) then x :: y :: l'
      else y :: insert_by_key x l'
  end.

Fixpoint sorted (l : list ProbeResult) : list ProbeResult :=
  match l with
  | [] => []
  | x :: l' => insert_by_key x (sorted l')
  end.

(** The order of the key. *)
Definition by_elapsed (a b : ProbeResult) : Prop := (elapsed_key a <= elapsed_key b)%Q.

(** [r.error or ('HTTP ' + str(r.status))]: an empty string is false. *)
Definition error_or_status (r : ProbeResult) : string :=
  match error r with
  | Some e => if decide (e = "") then "HTTP " +:+ str_optional_int (status r) else e
  | None => "HTTP " +:+ str_optional_int (status r)
  end.

Section Report.
(** [format(x, "7.1f")] *)
Variable format_7_1f : Q -> string.

(** Line 98, with [i] counted from 1. *)
Definition ok_line (i : nat) (r : ProbeResult) : string :=
  align_right 2 (str_int (Z.of_nat i)) +:+ ". " +:+ align_left 40 (url r) +:+ " "
    +:+ format_7_1f (elapsed_key r * 1000)%Q +:+ " ms  (HTTP " +:+ str_optional_int (status r) +:+ ")".

(** Line 105. *)
Definition fail_line (r : ProbeResult) : string :=
  " - " +:+ url r +:+ "  ->  erro: " +:+ error_or_status r.

Definition print_report (results : list ProbeResult) (c : console) : console :=
  let ok := report_ok results in
  let fail := report_fail results in
  let ok_sorted := sorted ok in
  let c := print (newline +:+ "=== HTTP Frequency — Resultados ===") c in
  let c :=
    match ok_sorted with
    | _ :: _ =>
        let c := print (newline +:+ "Top mais rápidos:") c in
        foldl (fun c ir => print (ok_line (S ir.1) ir.2) c) c (imap pair ok_sorted)
    | [] => print (newline +:+ "Nenhum site respondeu com sucesso.") c
    end in
  let c :=
    match fail with
    | _ :: _ =>
        let c := print (newline +:+ "Falhas/erros:") c in
        foldl (fun c r => print (fail_line r) c) c fail
    | [] => c
    end in
  print "" c.
End Report.

(** ** The invariant of the event loop *)

(** The moves a task still has to make. *)
Definition moves_left (t : task) : nat :=
  match t with
  | Waiting => 2
  | InFlight => 1
  | _ => 0
  end.

Definition remaining (ts : list task) : nat := sum_list (moves_left <$> ts).

Section Invariant.
Variable w : World.
Variable client : AsyncClient.
Variable method : string.
Variable urls : list string.

(** What task [i] can be: not started, in flight, or over with what
    [fetch_one] gave for URL number [i]. *)
Definition task_ok (i : nat) (t : task) : Prop :=
  match t with
  | Waiting | InFlight => True
  | _ => exists u, urls !! i = Some u /\ t = settle (fetch_one w i client u method)
  end.

(** One task for each URL; the slots in use and the free ones add up to the
    value the semaphore was created with; the counter is not negative; one
    request was sent for each task that started. *)
Record loop_inv (value : Z) (s : loop) : Prop := mkInv {
  inv_length : length (tasks s) = length urls;
  inv_slots : (sem_value s + Z.of_nat (in_flight (tasks s)) = value)%Z;
  inv_counter : (0 <= sem_value s)%Z;
  inv_tasks : forall i t, tasks s !! i = Some t -> task_ok i t;
  inv_issued : 2 * length (issued s) + remaining (tasks s)
               = 2 * length urls + in_flight (tasks s)
}.
End Invariant.

(** Every request of the run is answered or fails with an
    [httpx.HTTPError]: the failures [fetch_one] turns into a result. *)
Definition captured (w : World) (timeout : Q) (method : string) (urls : list string) : Prop :=
  forall i u, urls !! i = Some u ->
    match request w (make_client timeout) method u i with
    | Responds _ => True
    | Raises e => is_HTTPError e = true
    end.

(** ** The calls of [client.request] *)

(** The calls the tasks that have started account for: one, with the method
    of the run, for the URL of each task that is no longer waiting. *)
Fixpoint requested (method : string) (urls : list string) (ts : list task)
    : list (string * string) :=
  match urls, ts with
  | u :: urls', t :: ts' =>
      match t with
      | Waiting => requested method urls' ts'
      | _ => (method, u) :: requested method urls' ts'
      end
  | _, _ => []
  end.

(** ** [main] (lines 109-133) *)

(** How [main] ends: it returns, an exception leaves it, or it never ends. *)
Inductive ending : Type :=
| Exits
| Crashes (e : PyException)
| Hangs.

(** A run of [main]: how it ends, the console then, and the calls of
    [client.request] it made. *)
Record main_run := mkMainRun {
  main_end : ending;
  main_console : console;
  main_requests : list (string * string)
}.

Section Main.
(** [int(s)] and [float(s)] for a [str], [None] when they raise [ValueError]
    (the only exception they raise for a [str]); [str(x)] for a [float];
    [format(x, "7.1f")]. A [float] that is infinite or not a number is
    outside [Q]. *)
Variable int_of_str : string -> option Z.
Variable float_of_str : string -> option Q.
Variable str_of_float : Q -> string.
Variable format_7_1f : Q -> string.
Variable w : World.
Variable sched : nat -> nat.

(** Lines 117-121. The [except ValueError] does not catch the [EOFError] of
    [input]. *)
Definition read_concurrency (c : console) : result Z * console :=
  match input (newline +:+ "Concorrência (requisições simultâneas) [padrão 5]: ") c with
  | (Raise e, c') => (Raise e, c')
  | (Return l, c') =>
      let conc_str := strip l in
      if decide (conc_str = "") then (Return 5%Z, c')
      else match int_of_str conc_str with
           | Some n => (Return n, c')
           | None => (Return 5%Z, c')
           end
  end.

(** Lines 123-127. *)
Definition read_timeout (c : console) : result Q * console :=
  match input "Timeout em segundos [padrão 5]: " c with
  | (Raise e, c') => (Raise e, c')
  | (Return l, c') =>
      let tout_str := strip l in
      if decide (tout_str = "") then (Return 5%Q, c')
      else match float_of_str tout_str with
           | Some t => (Return t, c')
           | None => (Return 5%Q, c')
           end
  end.

(** Line 131. *)
Definition testing_line (urls : list string) (concurrency : Z) (timeout : Q) (method : string)
    : string :=
  newline +:+ "Testando " +:+ str_int (Z.of_nat (length urls)) +:+ " URL(s) | conc="
    +:+ str_int concurrency +:+ " | timeout=" +:+ str_of_float timeout
    +:+ "s | method=" +:+ method.

(** Lines 132-133: [asyncio.run(run_probe(...))], then the report. *)
Definition probe_and_report (urls : list string) (concurrency : Z) (timeout : Q)
    (method : string) (c : console) : main_run :=
  match run_probe_loop w sched urls concurrency timeout method with
  | (Finished (Return results), s) =>
      mkMainRun Exits (print_report format_7_1f results c) (issued s)
  | (Finished (Raise e), s) => mkMainRun (Crashes e) c (issued s)
  | (Deadlock, s) => mkMainRun Hangs c (issued s)
  | (OutOfFuel, s) => mkMainRun Hangs c (issued s)
  end.

Definition main (c : console) : main_run :=
  let c := print "=== HTTP Frequency ===" c in
  match get_urls_from_input c with
  | (Raise e, c) => mkMainRun (Crashes e) c []
  | (Return [], c) => mkMainRun Exits (print "Nenhuma URL informada. Encerrando." c) []
  | (Return urls, c) =>
      match read_concurrency c with
      | (Raise e, c) => mkMainRun (Crashes e) c []
      | (Return concurrency, c) =>
          match read_timeout c with
          | (Raise e, c) => mkMainRun (Crashes e) c []
          | (Return timeout, c) =>
              let method := "GET" in
              let c := print (testing_line urls concurrency timeout method) c in
              probe_and_report urls concurrency timeout method c
          end
      end
  end.
End Main.

(** ** A sample world *)

Definition InvalidURL : PyException := mkExn "InvalidURL" false.
Definition ConnectTimeout : PyException := mkExn "ConnectTimeout" true.
Definition ConnectError : PyException := mkExn "ConnectError" true.

(** httpx refuses the URL whose port is not a number with [httpx.InvalidURL],
    a subclass of [Exception] and not of [httpx.HTTPError]; a client whose
    connect timeout is not positive times out; one host is down, one page is
    missing, everything else answers 200 with an empty body. Task [k] reads
    the clock at [k/10] and, when answered, at [(k+3)/10] seconds. *)
Definition sample_world : World :=
  {| request := fun client method u k =>
       if decide (u = "https://example.com:abc") then Raises InvalidURL
       else if Qle_bool (connect (client_timeout client)) 0 then Raises ConnectTimeout
       else if decide (u = "https://down.example") then Raises ConnectError
       else if decide (u = "https://example.org/missing")
            then Responds (mkResponse 404 None u)
       else Responds (mkResponse 200 (Some []) u);
     perf_counter := fun k n => (Z.of_nat (k + 3 * n) # 10)%Q |}.

(** Sample builtins: [int] on a string of ASCII digits with an optional
    sign, which is what [int(s)] gives for these strings; [float] on the
    same strings only; one way of writing a float. *)
Fixpoint digits_value (acc : Z) (s : string) : option Z :=
  match s with
  | EmptyString => Some acc
  | String a s' =>
      let n := N_of_ascii a in
      if ((48 <=? n) && (n <=? 57))%N
      then digits_value (10 * acc + Z.of_N (n - 48)) s'
      else None
  end.

Definition sample_int (s : string) : option Z :=
  match s with
  | EmptyString => None
  | String "-" EmptyString => None
  | String "+" EmptyString => None
  | String "-" s' => Z.opp <$> digits_value 0 s'
  | String "+" s' => digits_value 0 s'
  | _ => digits_value 0 s
  end.

Definition sample_float (s : string) : option Q := inject_Z <$> sample_int s.

Definition sample_str_of_float (x : Q) : string :=
  str_int (Qnum x / Z.pos (Qden x)) +:+ ".0".

Definition sample_format (x : Q) : string :=
  align_right 7 (str_int (Qnum x / Z.pos (Qden x)) +:+ ".0").

(** The schedule that always moves the first task that can move. *)
Definition first_ready : nat -> nat := fun _ => 0.

(** * Properties *)

(** ** The definitions on small inputs *)

Example strip_spaces : strip "  http://a.example   " = "http://a.example".
Proof. reflexivity. Qed.

Example strip_inner_space_kept : strip (" a b" +:+ newline) = "a b".
Proof. reflexivity. Qed.

Example strip_accent_kept : strip " x é " = "x é".
Proof. reflexivity. Qed.

(** U+00A0 and U+3000 are white space for [str.strip]. *)
Example strip_unicode_space :
  strip (of_bytes [194; 160; 97; 32; 195; 169; 227; 128; 128; 194; 133]%N) = "a é".
Proof. reflexivity. Qed.

Example add_scheme_bare : add_scheme "example.com" = "https://example.com".
Proof. reflexivity. Qed.

Example add_scheme_http : add_scheme "http://example.com" = "http://example.com".
Proof. reflexivity. Qed.

Example remove_duplicates_abab :
  remove_duplicates ["a"; "b"; "a"; "c"; "b"] ∅ [] = ["a"; "b"; "c"].
Proof. by vm_compute. Qed.

Example align_right_2 : align_right 2 (str_int 7) = " 7".
Proof. reflexivity. Qed.

(** Three targets with one slot: an answer 200, a host that is down and an
    answer 404 give three results, in the order of the URLs. *)
Example run_probe_three_targets :
  run_probe sample_world first_ready
    ["https://example.org"; "https://down.example"; "https://example.org/missing"] 1 5 "GET"
  = Finished (Return
      [mkProbeResult "https://example.org" true (Some 200%Z) (Some (30 # 100)) (Some 0%Z)
         (Some "https://example.org") None;
       mkProbeResult "https://down.example" false None None None None (Some "ConnectError");
       mkProbeResult "https://example.org/missing" false (Some 404%Z) (Some (30 # 100))
         (Some 0%Z) (Some "https://example.org/missing") None]).
Proof. by vm_compute. Qed.

(** ** [fetch_one] *)

Lemma fetch_one_url w k client u method r :
  fetch_one w k client u method = Return r -> url r = u.
Proof.
  unfold fetch_one. destruct (request w client method u k) as [resp|e].
  - intros [= <-]. reflexivity.
  - destruct (is_HTTPError e); [intros [= <-]; reflexivity | discriminate].
Qed.

(** [fetch_one] lets an exception through exactly when the request raised
    one that is not an [httpx.HTTPError]. *)
Lemma fetch_one_raise w k client u method e :
  fetch_one w k client u method = Raise e <->
  request w client method u k = Raises e /\ is_HTTPError e = false.
Proof.
  unfold fetch_one. destruct (request w client method u k) as [resp|e'].
  - split; [discriminate | intros [? _]; discriminate].
  - destruct (is_HTTPError e') eqn:He.
    + split; [discriminate | intros [[= ->] ?]; congruence].
    + split; [intros [= ->]; auto | intros [[= ->] _]; reflexivity].
Qed.

(** The failures [fetch_one] does catch: an [httpx.HTTPError] becomes a
    failed result that carries the name of its class. *)
Lemma fetch_one_catches_HTTPError w k client u method e :
  request w client method u k = Raises e -> is_HTTPError e = true ->
  fetch_one w k client u method
  = Return (mkProbeResult u false None None None None (Some (class_name e))).
Proof. intros Hreq He. unfold fetch_one. by rewrite Hreq, He. Qed.

(** C3. A result of [fetch_one] has [ok] exactly when it has a status below
    400, and then it has no error and has its elapsed time, its byte count
    and its final URL. *)
Theorem fetch_one_ok_iff_status w k client u method r :
  fetch_one w k client u method = Return r ->
  (ok r = true <-> exists s, status r = Some s /\ (s < 400)%Z) /\
  (ok r = true ->
     error r = None /\ is_Some (elapsed_s r) /\ is_Some (bytes_rcv r) /\ is_Some (final_url r)).
Proof.
  unfold fetch_one. destruct (request w client method u k) as [resp|e].
  - intros [= <-]. simpl. split.
    + rewrite Z.ltb_lt. split; [eauto|]. by intros (s & [= <-] & Hs).
    + eauto.
  - destruct (is_HTTPError e); [|done]. intros [= <-]. simpl. split.
    + split; [done|]. by intros (s & Hs & _).
    + done.
Qed.

Lemma fetch_one_ok_iff_status_witness :
  let r := mkProbeResult "https://example.org" true (Some 200%Z) (Some ((3 # 10) - (0 # 10))%Q)
             (Some 0%Z) (Some "https://example.org") None in
  (ok r = true <-> exists s, status r = Some s /\ (s < 400)%Z) /\
  (ok r = true ->
     error r = None /\ is_Some (elapsed_s r) /\ is_Some (bytes_rcv r) /\ is_Some (final_url r)).
Proof.
  apply (fetch_one_ok_iff_status sample_world 0 (make_client 5) "https://example.org" "GET").
  reflexivity.
Defined.

(** C4. A failed result of [fetch_one] is of one of two kinds: with a status
    it has no error (the server answered); without a status it has an error
    and none of elapsed time, byte count and final URL (the request failed). *)
Theorem fetch_one_failure_split w k client u method r :
  fetch_one w k client u method = Return r ->
  (ok r = false -> is_Some (status r) -> error r = None) /\
  (ok r = false -> status r = None ->
     is_Some (error r) /\ elapsed_s r = None /\ bytes_rcv r = None /\ final_url r = None).
Proof.
  unfold fetch_one. destruct (request w client method u k) as [resp|e].
  - intros [= <-]. simpl. split; [done|]. done.
  - destruct (is_HTTPError e); [|done]. intros [= <-]. simpl. split.
    + by intros _ [s Hs].
    + eauto.
Qed.

Lemma fetch_one_failure_split_witness :
  let r := mkProbeResult "https://down.example" false None None None None (Some "ConnectError") in
  (ok r = false -> is_Some (status r) -> error r = None) /\
  (ok r = false -> status r = None ->
     is_Some (error r) /\ elapsed_s r = None /\ bytes_rcv r = None /\ final_url r = None).
Proof.
  apply (fetch_one_failure_split sample_world 1 (make_client 5) "https://down.example" "GET").
  reflexivity.
Defined.

(** ** The event loop *)

Lemma sum_list_insert (f : task -> nat) (ts : list task) i x y :
  ts !! i = Some y ->
  sum_list (f <$> <[i := x]> ts) + f y = sum_list (f <$> ts) + f x.
Proof.
  revert i. induction ts as [|t ts IH]; intros [|i] Hi; simplify_eq/=; [lia|].
  specialize (IH _ Hi). lia.
Qed.

Lemma in_flight_lookup (ts : list task) :
  in_flight ts <> 0 -> exists i, ts !! i = Some InFlight.
Proof.
  unfold in_flight. induction ts as [|t ts IH]; simpl; [done|].
  destruct t; simpl; intros H; try (destruct (IH H) as [i Hi]; by exists (S i)).
  by exists 0.
Qed.

Lemma first_exception_None (ts : list task) i e :
  first_exception ts = None -> ts !! i = Some (Failed e) -> False.
Proof.
  revert i. induction ts as [|t ts IH]; intros [|i] Hf Hi; simplify_eq/=; try done.
  destruct t; simplify_eq/=; eauto.
Qed.

Lemma first_exception_Some (ts : list task) e :
  first_exception ts = Some e -> exists i, ts !! i = Some (Failed e).
Proof.
  induction ts as [|t ts IH]; simpl; [done|].
  destruct t; try (intros H; destruct (IH H) as [i Hi]; by exists (S i)).
  intros [= ->]. by exists 0.
Qed.

Lemma mapM_task_result (ts : list task) rs :
  mapM task_result ts = Some rs <-> ts = Done <$> rs.
Proof.
  rewrite mapM_Some. split.
  - induction 1 as [|t r ts rs Ht _ IH]; [done|].
    destruct t; simplify_eq/=. by f_equal.
  - intros ->. apply Forall2_fmap_l, Forall_Forall2_diag, Forall_forall. done.
Qed.

(** When gather still waits, some task has not entered or is in flight. *)
Lemma gather_None (ts : list task) :
  gather ts = None ->
  exists i, ts !! i = Some Waiting \/ ts !! i = Some InFlight.
Proof.
  induction ts as [|t ts IH]; [done|].
  destruct t; try (intros _; exists 0; simpl; tauto); [|done].
  unfold gather in *. simpl.
  destruct (first_exception ts); [done|].
  destruct (mapM task_result ts); [done|].
  intros _. destruct IH as [i Hi]; [done|]. by exists (S i).
Qed.

Lemma gather_None_remaining (ts : list task) :
  gather ts = None -> 0 < remaining ts.
Proof.
  intros [i Hi]%gather_None. unfold remaining.
  revert i Hi. induction ts as [|t ts IH]; intros [|i] Hi; rewrite ?fmap_cons; simpl in Hi.
  - by destruct Hi.
  - by destruct Hi.
  - destruct Hi as [[= ->]|[= ->]]; simpl; lia.
  - specialize (IH _ Hi). change (0 < moves_left t + sum_list (moves_left <$> ts)). lia.
Qed.

Lemma in_flight_all_waiting (l : list string) :
  in_flight ((fun _ => Waiting) <$> l) = 0.
Proof. unfold in_flight. induction l; simpl; auto. Qed.

Lemma remaining_all_waiting (l : list string) :
  remaining ((fun _ => Waiting) <$> l) = 2 * length l.
Proof.
  unfold remaining. induction l as [|? ? IH]; [done|].
  rewrite !fmap_cons. simpl in *. lia.
Qed.

Section EventLoopFacts.
Variable w : World.
Variable client : AsyncClient.
Variable method : string.
Variable urls : list string.

Local Abbreviation advance := (advance w client method urls).
Local Abbreviation step := (step w client method urls).
Local Abbreviation enabled := (enabled w client method urls).
Local Abbreviation loop_inv := (loop_inv w client method urls).
Local Abbreviation event_loop := (event_loop w client method urls).

(** The two moves of a task, read off [advance]. *)
Lemma advance_cases i s s' :
  advance i s = Some s' ->
  exists u, urls !! i = Some u /\
    ((tasks s !! i = Some Waiting /\ (0 < sem_value s)%Z /\
      s' = mkLoop (sem_value s - 1) (<[i := InFlight]> (tasks s)) (issued s ++ [(method, u)]))
     \/
     (tasks s !! i = Some InFlight /\
      s' = mkLoop (sem_value s + 1)
                  (<[i := settle (fetch_one w i client u method)]> (tasks s)) (issued s))).
Proof.
  unfold advance, bound_fetch. destruct (urls !! i) as [u|]; [|done].
  intros H. exists u. split; [done|].
  destruct (tasks s !! i) as [[| | |]|]; try done.
  - destruct (0 <? sem_value s)%Z eqn:E; [|done].
    left. apply Z.ltb_lt in E. by simplify_eq.
  - right. by simplify_eq.
Qed.

Lemma advance_waiting i u s :
  urls !! i = Some u -> tasks s !! i = Some Waiting -> (0 < sem_value s)%Z ->
  is_Some (advance i s).
Proof.
  intros Hu Ht Hs. unfold advance, bound_fetch. rewrite Hu, Ht.
  apply Z.ltb_lt in Hs. rewrite Hs. eauto.
Qed.

Lemma advance_in_flight i u s :
  urls !! i = Some u -> tasks s !! i = Some InFlight -> is_Some (advance i s).
Proof.
  intros Hu Ht. unfold advance, bound_fetch. rewrite Hu, Ht. eauto.
Qed.

Lemma settle_moves_left r : moves_left (settle r) = 0.
Proof. by destruct r. Qed.

Lemma settle_holds_slot r : holds_slot (settle r) = 0.
Proof. by destruct r. Qed.

(** Each move uses up one of the moves that are left. *)
Lemma advance_remaining i s s' :
  advance i s = Some s' -> remaining (tasks s') + 1 = remaining (tasks s).
Proof.
  intros (u & _ & [(Ht & _ & ->) | (Ht & ->)])%advance_cases; unfold remaining; simpl.
  - pose proof (sum_list_insert moves_left _ _ InFlight _ Ht). simpl in *. lia.
  - pose proof (sum_list_insert moves_left _ _ (settle (fetch_one w i client u method)) _ Ht).
    rewrite settle_moves_left in *. simpl in *. lia.
Qed.

Lemma create_tasks_inv value :
  (0 <= value)%Z -> loop_inv value (create_tasks urls value).
Proof.
  intros Hv. unfold create_tasks.
  pose proof (in_flight_all_waiting urls) as Hflight.
  pose proof (remaining_all_waiting urls) as Hrem.
  split; simpl.
  - by rewrite length_fmap.
  - rewrite Hflight. lia.
  - done.
  - intros i t Ht. apply list_lookup_fmap_Some in Ht as (? & -> & _). exact I.
  - rewrite Hflight, Hrem. lia.
Qed.

Lemma advance_inv value i s s' :
  loop_inv value s -> advance i s = Some s' -> loop_inv value s'.
Proof.
  intros [Hlen Hslots Hcnt Htasks Hiss] Hadv.
  pose proof (advance_remaining _ _ _ Hadv) as Hrem.
  destruct (advance_cases _ _ _ Hadv) as (u & Hu & [(Ht & Hpos & ->) | (Ht & ->)]);
    simpl in *.
  - pose proof (sum_list_insert holds_slot _ _ InFlight _ Ht) as Hfl.
    fold (in_flight (<[i:=InFlight]> (tasks s))) in Hfl. fold (in_flight (tasks s)) in Hfl.
    simpl in Hfl.
    split; simpl; rewrite ?length_insert, ?length_app; simpl; try lia.
    intros j t Hj. destruct (decide (i = j)) as [->|Hne].
    + rewrite list_lookup_insert_eq in Hj by (by eapply lookup_lt_Some). by simplify_eq.
    + rewrite list_lookup_insert_ne in Hj by done. eauto.
  - pose proof (sum_list_insert holds_slot _ _ (settle (fetch_one w i client u method)) _ Ht)
      as Hfl.
    fold (in_flight (<[i:=settle (fetch_one w i client u method)]> (tasks s))) in Hfl.
    fold (in_flight (tasks s)) in Hfl.
    rewrite settle_holds_slot in Hfl. simpl in Hfl.
    split; simpl; rewrite ?length_insert; try lia.
    intros j t Hj. destruct (decide (i = j)) as [->|Hne].
    + rewrite list_lookup_insert_eq in Hj by (by eapply lookup_lt_Some). simplify_eq.
      destruct (fetch_one w j client u method) eqn:E; simpl; exists u; by rewrite E.
    + rewrite list_lookup_insert_ne in Hj by done. eauto.
Qed.

Lemma rtc_step_inv value s s' :
  loop_inv value s -> rtc step s s' -> loop_inv value s'.
Proof.
  intros Hinv Hrtc. induction Hrtc as [|s1 s2 s3 [i Hi] _ IH]; [done|].
  eauto using advance_inv.
Qed.

Lemma reachable_inv concurrency s :
  reachable w client method urls concurrency s ->
  (0 <= concurrency)%Z /\ loop_inv concurrency s.
Proof.
  intros (value & Hsem & Hrtc). unfold Semaphore in Hsem.
  destruct (concurrency <? 0)%Z eqn:E; [done|]. simplify_eq.
  apply Z.ltb_ge in E. split; [done|].
  eapply rtc_step_inv; [|done]. by apply create_tasks_inv.
Qed.

Lemma elem_of_enabled i s : i ∈ enabled s <-> is_Some (advance i s).
Proof.
  unfold enabled. rewrite list_elem_of_filter, elem_of_seq. split; [tauto|].
  intros H. split; [done|]. destruct H as [s' Hs'].
  destruct (advance_cases _ _ _ Hs') as (u & _ & [(Ht & _) | (Ht & _)]);
    apply lookup_lt_Some in Ht; lia.
Qed.

(** The task the schedule picks can move. *)
Lemma picked_enabled (n i0 : nat) (en : list nat) s :
  enabled s = i0 :: en ->
  is_Some (advance (default i0 ((i0 :: en) !! (n `mod` length (i0 :: en)))) s).
Proof.
  intros Hen. apply elem_of_enabled. rewrite Hen.
  destruct ((i0 :: en) !! (n `mod` length (i0 :: en))) as [i|] eqn:E; simpl.
  - by eapply list_elem_of_lookup_2.
  - apply list_elem_of_here.
Qed.

(** No deadlock with a slot to give: while gather waits, some task can move. *)
Lemma progress value s :
  (1 <= value)%Z -> loop_inv value s -> gather (tasks s) = None -> enabled s <> [].
Proof.
  intros Hv [Hlen Hslots Hcnt _ _] Hg Hen.
  assert (Hnone : forall i, advance i s = None).
  { intros i. destruct (advance i s) eqn:E; [|done].
    assert (i ∈ enabled s) as Hi by (apply elem_of_enabled; eauto).
    rewrite Hen in Hi. by apply elem_of_nil in Hi. }
  assert (Hurl : forall i t, tasks s !! i = Some t -> is_Some (urls !! i)).
  { intros i t Ht. apply lookup_lt_is_Some. apply lookup_lt_Some in Ht. lia. }
  destruct (decide (in_flight (tasks s) = 0)) as [Hz|Hnz].
  - destruct (gather_None _ Hg) as [i [Hi|Hi]].
    + destruct (Hurl _ _ Hi) as [u Hu].
      destruct (advance_waiting i u s Hu Hi) as [s' Hs']; [lia|].
      specialize (Hnone i). congruence.
    + destruct (Hurl _ _ Hi) as [u Hu].
      destruct (advance_in_flight i u s Hu Hi) as [s' Hs'].
      specialize (Hnone i). congruence.
  - destruct (in_flight_lookup _ Hnz) as [i Hi].
    destruct (Hurl _ _ Hi) as [u Hu].
    destruct (advance_in_flight i u s Hu Hi) as [s' Hs'].
    specialize (Hnone i). congruence.
Qed.

(** Where the loop stops, and why. *)
Lemma event_loop_spec sched fuel t s r s' :
  event_loop sched fuel t s = (r, s') ->
  rtc step s s' /\
  match r with
  | Finished x => gather (tasks s') = Some x
  | Deadlock => gather (tasks s') = None /\ enabled s' = []
  | OutOfFuel => gather (tasks s') = None /\ remaining (tasks s') + fuel < remaining (tasks s) + 1
                 /\ fuel <= remaining (tasks s) - remaining (tasks s')
  end.
Proof.
  revert t s. induction fuel as [|fuel IH]; intros t s; simpl.
  - destruct (gather (tasks s)) eqn:Hg; [intros [= <- <-]; by split|].
    destruct (enabled s) as [|i0 en] eqn:Hen; intros [= <- <-]; (split; [done|]); [done|].
    split; [done|]. lia.
  - destruct (gather (tasks s)) eqn:Hg; [intros [= <- <-]; by split|].
    destruct (enabled s) as [|i0 en] eqn:Hen; [intros [= <- <-]; by split|].
    destruct (picked_enabled (sched t) i0 en s Hen) as [s1 Hs1].
    simpl in Hs1. rewrite Hs1. intros Hloop.
    destruct (IH _ _ Hloop) as [Hrtc Hr].
    pose proof (advance_remaining _ _ _ Hs1) as Hrem.
    split; [eapply rtc_l; [by exists (default i0 ((i0 :: en) !! (sched t `mod` S (length en))))|done]|].
    destruct r; [done|done|]. destruct Hr as (? & ? & ?). split; [done|]. lia.
Qed.

(** The moves that are left bound the moves of the loop. *)
Lemma event_loop_fuel sched fuel t s :
  remaining (tasks s) <= fuel -> (event_loop sched fuel t s).1 <> OutOfFuel.
Proof.
  intros Hfuel Hout.
  destruct (event_loop sched fuel t s) as [r s'] eqn:E. simpl in Hout. subst r.
  apply event_loop_spec in E as (_ & Hg%gather_None_remaining & ? & _). lia.
Qed.

(** A run with at least one slot ends, and ends as gather says. *)
Lemma event_loop_finishes sched fuel t value s :
  (1 <= value)%Z -> loop_inv value s -> remaining (tasks s) <= fuel ->
  exists x s', event_loop sched fuel t s = (Finished x, s') /\
    rtc step s s' /\ loop_inv value s' /\ gather (tasks s') = Some x.
Proof.
  intros Hv Hinv Hfuel.
  pose proof (event_loop_fuel sched fuel t s Hfuel) as Hout.
  destruct (event_loop sched fuel t s) as [r s'] eqn:E. simpl in Hout.
  destruct (event_loop_spec _ _ _ _ _ _ E) as [Hrtc Hr].
  pose proof (rtc_step_inv _ _ _ Hinv Hrtc) as Hinv'.
  destruct r as [x| |]; [by exists x, s'| |done].
  destruct Hr as [Hg Hen]. by destruct (progress value s' Hv Hinv' Hg).
Qed.

(** What gather returns is, task by task, what [fetch_one] returned. *)
Lemma gather_results value s rs :
  loop_inv value s -> gather (tasks s) = Some (Return rs) ->
  length rs = length urls /\
  forall i r, rs !! i = Some r ->
    exists u, urls !! i = Some u /\ fetch_one w i client u method = Return r.
Proof.
  intros [Hlen _ _ Htasks _]. unfold gather.
  destruct (first_exception (tasks s)); [done|].
  destruct (mapM task_result (tasks s)) as [rs'|] eqn:Hm; [|done].
  intros [= ->]. apply mapM_task_result in Hm. rewrite Hm in *.
  rewrite length_fmap in Hlen. split; [done|].
  intros i r Hi.
  assert ((Done <$> rs) !! i = Some (Done r)) as Ht by (by rewrite list_lookup_fmap, Hi).
  destruct (Htasks _ _ Ht) as (u & Hu & Hs). exists u. split; [done|].
  destruct (fetch_one w i client u method); by simplify_eq/=.
Qed.

(** What gather raises escaped from [fetch_one] in some task. *)
Lemma gather_raises value s e :
  loop_inv value s -> gather (tasks s) = Some (Raise e) ->
  exists i u, urls !! i = Some u /\ fetch_one w i client u method = Raise e.
Proof.
  intros [_ _ _ Htasks _]. unfold gather.
  destruct (first_exception (tasks s)) as [e'|] eqn:Hf.
  - intros [= ->]. destruct (first_exception_Some _ _ Hf) as [i Hi].
    destruct (Htasks _ _ Hi) as (u & Hu & Hs). exists i, u. split; [done|].
    destruct (fetch_one w i client u method); by simplify_eq/=.
  - destruct (mapM task_result (tasks s)); done.
Qed.

End EventLoopFacts.

(** C5. In every state a run can reach, under any schedule and any order of
    the answers, the tasks in flight are at most [concurrency]; and a task in
    flight can always end, whatever [fetch_one] gives (a result or an
    exception): ending it gives its slot back, so that the counter is
    positive and every task still waiting can take the slot. *)
Theorem bound_fetch_concurrency_bound w client method urls concurrency s :
  reachable w client method urls concurrency s ->
  (Z.of_nat (in_flight (tasks s)) <= concurrency)%Z /\
  forall i, tasks s !! i = Some InFlight ->
    exists u s',
      urls !! i = Some u /\
      advance w client method urls i s = Some s' /\
      tasks s' !! i = Some (settle (fetch_one w i client u method)) /\
      sem_value s' = (sem_value s + 1)%Z /\
      in_flight (tasks s') + 1 = in_flight (tasks s) /\
      forall j, tasks s' !! j = Some Waiting ->
        is_Some (advance w client method urls j s').
Proof.
  intros Hreach. destruct (reachable_inv _ _ _ _ _ _ Hreach) as [Hc Hinv].
  split; [destruct Hinv; lia|].
  intros i Hi.
  assert (is_Some (urls !! i)) as [u Hu].
  { apply lookup_lt_is_Some. destruct Hinv as [<- _ _ _ _]. by eapply lookup_lt_Some. }
  destruct (advance_in_flight w client method urls i u s Hu Hi) as [s' Hs'].
  pose proof (advance_inv _ _ _ _ _ _ _ _ Hinv Hs') as Hinv'.
  destruct (advance_cases _ _ _ _ _ _ _ Hs') as (u' & Hu' & [(Ht & _) | (_ & Heq)]);
    [congruence|].
  assert (u' = u) as -> by congruence.
  exists u, s'. split; [done|]. split; [done|].
  pose proof (sum_list_insert holds_slot _ _ (settle (fetch_one w i client u method)) _ Hi)
    as Hfl.
  rewrite settle_holds_slot in Hfl. simpl in Hfl.
  subst s'. simpl in *. repeat split.
  - apply list_lookup_insert_eq. by eapply lookup_lt_Some.
  - unfold in_flight. lia.
  - intros j Hj.
    assert (is_Some (urls !! j)) as [uj Huj].
    { apply lookup_lt_is_Some. destruct Hinv' as [<- _ _ _ _]. by eapply lookup_lt_Some. }
    eapply advance_waiting; [done|done|]. simpl. destruct Hinv. lia.
Qed.

Lemma bound_fetch_concurrency_bound_witness :
  let urls := ["https://example.org"; "https://down.example"; "https://example.org/missing"] in
  let s := mkLoop 0 [InFlight; Waiting; InFlight]
             [("GET", "https://example.org"); ("GET", "https://example.org/missing")] in
  (Z.of_nat (in_flight (tasks s)) <= 2)%Z /\
  forall i, tasks s !! i = Some InFlight ->
    exists u s',
      urls !! i = Some u /\
      advance sample_world (make_client 5) "GET" urls i s = Some s' /\
      tasks s' !! i = Some (settle (fetch_one sample_world i (make_client 5) u "GET")) /\
      sem_value s' = (sem_value s + 1)%Z /\
      in_flight (tasks s') + 1 = in_flight (tasks s) /\
      forall j, tasks s' !! j = Some Waiting ->
        is_Some (advance sample_world (make_client 5) "GET" urls j s').
Proof.
  apply (bound_fetch_concurrency_bound sample_world (make_client 5) "GET"
           ["https://example.org"; "https://down.example"; "https://example.org/missing"] 2).
  exists 2%Z. split; [reflexivity|].
  eapply rtc_l; [exists 0; reflexivity|].
  eapply rtc_l; [exists 2; reflexivity|].
  apply rtc_refl.
Defined.

(** ** [run_probe] *)

Lemma Semaphore_Return concurrency :
  (0 <= concurrency)%Z -> Semaphore concurrency = Return concurrency.
Proof. intros H. unfold Semaphore. apply Z.ltb_ge in H. by rewrite H. Qed.

Lemma Semaphore_Raise concurrency :
  (concurrency < 0)%Z -> Semaphore concurrency = Raise ValueError.
Proof. intros H. unfold Semaphore. apply Z.ltb_lt in H. by rewrite H. Qed.

(** With at least one slot the run ends, whatever the schedule: gather is
    over in a state the loop can reach. *)
Lemma run_probe_finishes w sched urls concurrency timeout method :
  (1 <= concurrency)%Z ->
  exists x s,
    run_probe_loop w sched urls concurrency timeout method = (Finished x, s) /\
    reachable w (make_client timeout) method urls concurrency s /\
    gather (tasks s) = Some x.
Proof.
  intros Hc. unfold run_probe_loop. rewrite Semaphore_Return by lia.
  destruct (event_loop_finishes w (make_client timeout) method urls sched
              (2 * length urls) 0 concurrency (create_tasks urls concurrency))
    as (x & s & Hrun & Hrtc & _ & Hg).
  - done.
  - apply create_tasks_inv. lia.
  - simpl. by rewrite remaining_all_waiting.
  - exists x, s. split; [done|]. split; [|done].
    exists concurrency. split; [apply Semaphore_Return; lia | done].
Qed.

(** With at least one slot, and every failure an [httpx.HTTPError], the run
    returns, for each URL and in the order of the URLs, what [fetch_one]
    returned, and one request was sent for each URL. *)
Lemma run_probe_returns w sched urls concurrency timeout method :
  (1 <= concurrency)%Z -> captured w timeout method urls ->
  exists rs s,
    run_probe_loop w sched urls concurrency timeout method = (Finished (Return rs), s) /\
    length rs = length urls /\
    length (issued s) = length urls /\
    forall i r, rs !! i = Some r ->
      exists u, urls !! i = Some u /\
        fetch_one w i (make_client timeout) u method = Return r.
Proof.
  intros Hc Hcap.
  destruct (run_probe_finishes w sched urls concurrency timeout method Hc)
    as (x & s & Hrun & Hreach & Hg).
  apply reachable_inv in Hreach as [_ Hinv].
  destruct x as [rs|e].
  - exists rs, s. split; [done|].
    destruct (gather_results _ _ _ _ _ _ _ Hinv Hg) as [Hlen Hrs].
    split; [done|]. split; [|done].
    destruct Hinv as [_ _ _ _ Hiss]. unfold gather in Hg.
    destruct (first_exception (tasks s)); [done|].
    destruct (mapM task_result (tasks s)) as [rs'|] eqn:Hm; [|done].
    simplify_eq/=. apply mapM_task_result in Hm. rewrite Hm in Hiss.
    assert (remaining (Done <$> rs) = 0 /\ in_flight (Done <$> rs) = 0) as [Hr Hf].
    { unfold remaining, in_flight. clear. induction rs; simpl; auto. }
    lia.
  - destruct (gather_raises _ _ _ _ _ _ _ Hinv Hg) as (i & u & Hu & Hf).
    apply fetch_one_raise in Hf as [Hreq He].
    specialize (Hcap i u Hu). rewrite Hreq in Hcap. congruence.
Qed.

(** When a request raises an exception that is not an [httpx.HTTPError],
    the run ends with an exception, whatever the schedule. *)
Lemma run_probe_raises w sched urls concurrency timeout method i u e :
  (1 <= concurrency)%Z -> urls !! i = Some u ->
  request w (make_client timeout) method u i = Raises e -> is_HTTPError e = false ->
  exists e', run_probe w sched urls concurrency timeout method = Finished (Raise e').
Proof.
  intros Hc Hu Hreq He.
  destruct (run_probe_finishes w sched urls concurrency timeout method Hc)
    as (x & s & Hrun & Hreach & Hg).
  unfold run_probe. rewrite Hrun. simpl.
  destruct x as [rs|e']; [|by exists e'].
  apply reachable_inv in Hreach as [_ Hinv].
  destruct (gather_results _ _ _ _ _ _ _ Hinv Hg) as [Hlen Hrs].
  assert (is_Some (rs !! i)) as [r Hr].
  { apply lookup_lt_is_Some. rewrite Hlen. by eapply lookup_lt_Some. }
  destruct (Hrs _ _ Hr) as (u' & Hu' & Hf).
  assert (u' = u) as -> by congruence.
  assert (fetch_one w i (make_client timeout) u method = Raise e) as Hf'
    by (by apply fetch_one_raise).
  congruence.
Qed.

(** The bound on the moves is never the reason why a run stops. *)
Lemma run_probe_never_out_of_fuel w sched urls concurrency timeout method :
  run_probe w sched urls concurrency timeout method <> OutOfFuel.
Proof.
  unfold run_probe, run_probe_loop. destruct (Semaphore concurrency); [|done].
  apply event_loop_fuel. simpl. by rewrite remaining_all_waiting.
Qed.

(** [Deadlock] is a deadlock: gather waits and no task will ever move. *)
Lemma run_probe_deadlock w sched urls concurrency timeout method s :
  run_probe_loop w sched urls concurrency timeout method = (Deadlock, s) ->
  gather (tasks s) = None /\
  forall s', ~ step w (make_client timeout) method urls s s'.
Proof.
  unfold run_probe_loop. destruct (Semaphore concurrency); [|done].
  intros [_ [Hg Hen]]%event_loop_spec. split; [done|].
  intros s' [i Hi].
  assert (i ∈ enabled w (make_client timeout) method urls s) as Hin
    by (apply elem_of_enabled; eauto).
  rewrite Hen in Hin. by apply elem_of_nil in Hin.
Qed.

(** What a run raises was raised by a request and is not an
    [httpx.HTTPError], unless it is the [ValueError] of the semaphore. *)
Lemma run_probe_raised w sched urls concurrency timeout method e :
  (0 <= concurrency)%Z ->
  run_probe w sched urls concurrency timeout method = Finished (Raise e) ->
  exists i u, urls !! i = Some u /\
    request w (make_client timeout) method u i = Raises e /\ is_HTTPError e = false.
Proof.
  intros Hc. unfold run_probe, run_probe_loop. rewrite Semaphore_Return by done.
  destruct (event_loop _ _ _ _ _ _ _ _) as [r s] eqn:E. simpl. intros ->.
  apply event_loop_spec in E as [Hrtc Hg].
  assert (loop_inv w (make_client timeout) method urls concurrency s) as Hinv.
  { eapply rtc_step_inv; [|done]. by apply create_tasks_inv. }
  destruct (gather_raises _ _ _ _ _ _ _ Hinv Hg) as (i & u & Hu & Hf).
  apply fetch_one_raise in Hf. eauto.
Qed.

(** What a run returns has the URLs of the input, in their order. *)
Lemma run_probe_urls w sched urls concurrency timeout method rs :
  run_probe w sched urls concurrency timeout method = Finished (Return rs) ->
  url <$> rs = urls.
Proof.
  unfold run_probe, run_probe_loop, Semaphore.
  destruct (concurrency <? 0)%Z eqn:Hc; [done|]. apply Z.ltb_ge in Hc.
  destruct (event_loop _ _ _ _ _ _ _ _) as [r s] eqn:E. simpl. intros ->.
  apply event_loop_spec in E as [Hrtc Hg].
  assert (loop_inv w (make_client timeout) method urls concurrency s) as Hinv.
  { eapply rtc_step_inv; [|done]. by apply create_tasks_inv. }
  destruct (gather_results _ _ _ _ _ _ _ Hinv Hg) as [Hlen Hrs].
  apply list_eq_same_length with (length urls); [done|by rewrite length_fmap|].
  intros i u1 u2 _ H1 H2.
  apply list_lookup_fmap_Some in H1 as (r & -> & Hr).
  destruct (Hrs _ _ Hr) as (u & Hu & Hf). apply fetch_one_url in Hf. congruence.
Qed.

(** C1. Cardinality fails on the code at a URL that httpx refuses: for the
    two URLs below, the second with a port that is not a number, with 5 slots
    and a timeout of 5 seconds, [run_probe] raises [InvalidURL] under every
    schedule and returns no result at all, instead of two results. *)
Theorem run_probe_invalid_url_no_results (sched : nat -> nat) :
  run_probe sample_world sched ["https://example.org"; "https://example.com:abc"] 5 5 "GET"
  = Finished (Raise InvalidURL).
Proof.
  destruct (run_probe_raises sample_world sched
              ["https://example.org"; "https://example.com:abc"] 5 5 "GET"
              1 "https://example.com:abc" InvalidURL) as [e He]; try done.
  rewrite He. do 2 f_equal.
  apply run_probe_raised in He as (i & u & Hu & Hreq & _); [|done].
  destruct i as [|[|i]]; simpl in Hu; [| |done]; injection Hu as <-;
    vm_compute in Hreq; [discriminate|].
  injection Hreq as <-. reflexivity.
Qed.

(** With no slot at all nothing can move. *)
Lemma no_slot_no_move w client method urls i :
  advance w client method urls i (create_tasks urls 0) = None.
Proof.
  unfold advance, bound_fetch, create_tasks. simpl.
  destruct (urls !! i); [|done].
  rewrite list_lookup_fmap. by destruct (urls !! i).
Qed.

Lemma no_slot_enabled w client method urls :
  enabled w client method urls (create_tasks urls 0) = [].
Proof.
  destruct (enabled _ _ _ _ _) as [|i0 en] eqn:E; [done|].
  assert (i0 ∈ enabled w client method urls (create_tasks urls 0)) as Hi
    by (rewrite E; apply list_elem_of_here).
  apply elem_of_enabled in Hi as [s' Hs']. by rewrite no_slot_no_move in Hs'.
Qed.

Lemma gather_all_waiting (u : string) (us : list string) :
  gather ((fun _ => Waiting) <$> u :: us) = None.
Proof.
  unfold gather.
  assert (first_exception ((fun _ => Waiting) <$> u :: us) = None) as ->; [|done].
  generalize (u :: us). intros l. by induction l.
Qed.

Lemma event_loop_no_slot w client method urls sched fuel t :
  event_loop w client method urls sched fuel t (create_tasks urls 0)
  = (match urls with [] => Finished (Return []) | _ => Deadlock end, create_tasks urls 0).
Proof.
  destruct urls as [|u us].
  - by destruct fuel.
  - pose proof (gather_all_waiting u us) as Hg.
    pose proof (no_slot_enabled w client method (u :: us)) as Hen.
    change (gather (tasks (create_tasks (u :: us) 0)) = None) in Hg.
    set (s0 := create_tasks (u :: us) 0) in *. clearbody s0.
    destruct fuel; simpl; by rewrite Hg, Hen.
Qed.

(** C2, the claim as stated fails: a timeout of zero is not refused (the
    request is sent and its time-out comes back as a result), and with zero
    slots the call is not refused either: it waits for ever. *)
Lemma run_probe_accepts_bad_configuration :
  (0 <= 0)%Q /\
  run_probe sample_world first_ready ["https://example.org"] 1 0 "GET"
  = Finished (Return [mkProbeResult "https://example.org" false None None None None
                        (Some "ConnectTimeout")]) /\
  requests_issued sample_world first_ready ["https://example.org"] 1 0 "GET"
  = [("GET", "https://example.org")] /\
  run_probe sample_world first_ready ["https://example.org"] 0 5 "GET" = Deadlock.
Proof. by vm_compute. Qed.

(** C2, amended. A negative [concurrency] is refused by the semaphore with
    [ValueError] before any request; zero is accepted, no request is ever
    sent and with a URL to probe the call never returns; the timeout is not
    checked: for one slot or more and any timeout, when every request is
    answered or fails with an [httpx.HTTPError], the call returns one result
    for each URL. *)
Theorem run_probe_configuration w sched urls concurrency timeout method :
  ((concurrency < 0)%Z ->
     run_probe w sched urls concurrency timeout method = Finished (Raise ValueError) /\
     requests_issued w sched urls concurrency timeout method = []) /\
  (concurrency = 0%Z ->
     requests_issued w sched urls concurrency timeout method = [] /\
     (urls <> [] -> run_probe w sched urls concurrency timeout method = Deadlock)) /\
  ((1 <= concurrency)%Z -> captured w timeout method urls ->
     exists rs, run_probe w sched urls concurrency timeout method = Finished (Return rs) /\
                length rs = length urls).
Proof.
  unfold run_probe, requests_issued, run_probe_loop. repeat split.
  - by rewrite Semaphore_Raise.
  - by rewrite Semaphore_Raise.
  - subst. by rewrite Semaphore_Return, event_loop_no_slot.
  - subst. rewrite Semaphore_Return, event_loop_no_slot by done. by destruct urls.
  - intros Hc Hcap.
    destruct (run_probe_returns w sched urls concurrency timeout method Hc Hcap)
      as (rs & s & Hrun & Hlen & _).
    exists rs. unfold run_probe_loop in Hrun. by rewrite Hrun.
Qed.

Lemma sample_world_captured timeout method urls :
  "https://example.com:abc" ∉ urls -> captured sample_world timeout method urls.
Proof.
  intros Hnot i u Hu. simpl.
  destruct (decide (u = "https://example.com:abc")) as [->|_].
  - destruct Hnot. by eapply list_elem_of_lookup_2.
  - destruct (Qle_bool _ _); [done|]. repeat case_decide; done.
Qed.

Lemma run_probe_configuration_witness :
  (run_probe sample_world first_ready ["https://example.org"] (-1) 5 "GET"
   = Finished (Raise ValueError) /\
   requests_issued sample_world first_ready ["https://example.org"] (-1) 5 "GET" = []) /\
  run_probe sample_world first_ready ["https://example.org"] 0 5 "GET" = Deadlock /\
  exists rs, run_probe sample_world first_ready ["https://example.org"] 1 (-1) "GET"
             = Finished (Return rs) /\ length rs = 1.
Proof.
  split; [|split].
  - apply (run_probe_configuration sample_world first_ready ["https://example.org"] (-1) 5 "GET").
    reflexivity.
  - apply (run_probe_configuration sample_world first_ready ["https://example.org"] 0 5 "GET");
      [reflexivity | discriminate].
  - apply (run_probe_configuration sample_world first_ready ["https://example.org"] 1 (-1) "GET");
      [reflexivity|].
    apply sample_world_captured. rewrite list_elem_of_singleton. discriminate.
Defined.

(** C6, on the code: a failure that is not an [httpx.HTTPError] (httpx
    raises [InvalidURL] for a malformed URL) is not caught by [fetch_one],
    which lets it through instead of returning a failed [ProbeResult];
    [run_probe] then raises, under every schedule, and the results of the
    other probes are lost. *)
Theorem fetch_one_misses_other_exceptions w sched urls concurrency timeout method i u e :
  (1 <= concurrency)%Z -> urls !! i = Some u ->
  request w (make_client timeout) method u i = Raises e -> is_HTTPError e = false ->
  fetch_one w i (make_client timeout) u method = Raise e /\
  exists e', run_probe w sched urls concurrency timeout method = Finished (Raise e').
Proof.
  intros Hc Hu Hreq He. split.
  - by apply fetch_one_raise.
  - by eapply run_probe_raises.
Qed.

Lemma fetch_one_misses_other_exceptions_witness :
  fetch_one sample_world 1 (make_client 5) "https://example.com:abc" "GET" = Raise InvalidURL /\
  exists e', run_probe sample_world first_ready
               ["https://example.org"; "https://example.com:abc"; "https://down.example"]
               5 5 "GET" = Finished (Raise e').
Proof.
  apply (fetch_one_misses_other_exceptions sample_world first_ready
           ["https://example.org"; "https://example.com:abc"; "https://down.example"]
           5 5 "GET" 1 "https://example.com:abc" InvalidURL);
    [lia | reflexivity | reflexivity | reflexivity].
Defined.

(** C7. With no URL the call does not wait: a negative [concurrency] is
    refused with [ValueError], and otherwise the empty list is returned, with
    no request sent. *)
Theorem run_probe_empty w sched concurrency timeout method :
  ((concurrency < 0)%Z /\
   run_probe w sched [] concurrency timeout method = Finished (Raise ValueError)
   \/
   (0 <= concurrency)%Z /\
   run_probe w sched [] concurrency timeout method = Finished (Return [])) /\
  requests_issued w sched [] concurrency timeout method = [].
Proof.
  unfold run_probe, requests_issued, run_probe_loop, Semaphore.
  destruct (concurrency <? 0)%Z eqn:Hc.
  - apply Z.ltb_lt in Hc. split; [by left|done].
  - apply Z.ltb_ge in Hc. split; [by right|done].
Qed.

(** C10. The results come in the order of the URLs: whenever [run_probe]
    returns, the URL of result [i] is URL [i] of the input; and it does
    return, with one slot or more, when every request is answered or fails
    with an [httpx.HTTPError]. *)
Theorem run_probe_preserves_order w sched urls concurrency timeout method :
  (forall rs, run_probe w sched urls concurrency timeout method = Finished (Return rs) ->
     length rs = length urls /\
     forall i u, urls !! i = Some u -> url <$> rs !! i = Some u) /\
  ((1 <= concurrency)%Z -> captured w timeout method urls ->
     exists rs, run_probe w sched urls concurrency timeout method = Finished (Return rs) /\
                url <$> rs = urls).
Proof.
  split.
  - intros rs Hrun. apply run_probe_urls in Hrun. subst urls.
    split; [by rewrite length_fmap|].
    intros i u Hu. by rewrite <- list_lookup_fmap.
  - intros Hc Hcap.
    destruct (run_probe_returns w sched urls concurrency timeout method Hc Hcap)
      as (rs & s & Hrun & _).
    assert (run_probe w sched urls concurrency timeout method = Finished (Return rs)) as Hrun'
      by (unfold run_probe; by rewrite Hrun).
    exists rs. split; [done|]. by eapply run_probe_urls.
Qed.

Lemma run_probe_preserves_order_witness :
  exists rs,
    run_probe sample_world (fun t => t)
      ["https://example.org"; "https://down.example"; "https://example.org/missing";
       "https://example.org"] 2 5 "GET" = Finished (Return rs) /\
    url <$> rs = ["https://example.org"; "https://down.example"; "https://example.org/missing";
                  "https://example.org"].
Proof.
  apply (run_probe_preserves_order sample_world (fun t => t)
           ["https://example.org"; "https://down.example"; "https://example.org/missing";
            "https://example.org"] 2 5 "GET"); [lia|].
  apply sample_world_captured. apply (bool_decide_unpack _). by vm_compute.
Defined.

(** ** [get_urls_from_input] *)

(** Each turn of [read_urls] is one call of [input("URL: ")]. *)
Lemma read_urls_input lines out urls :
  read_urls lines out urls =
  match input "URL: " (mkConsole lines out) with
  | (Raise e, c) => (Raise e, c)
  | (Return l, c) =>
      if decide (strip l = "") then (Return urls, c)
      else read_urls (stdin c) (stdout c) (urls ++ [add_scheme (strip l)])
  end.
Proof. by destruct lines. Qed.

Lemma add_scheme_default_to_https linha : add_scheme linha = default_to_https linha.
Proof.
  unfold add_scheme, default_to_https, startswith.
  by destruct (String.prefix "http://" linha), (String.prefix "https://" linha).
Qed.

(** After [add_scheme] every entry starts with a scheme. *)
Lemma add_scheme_startswith linha :
  startswith (add_scheme linha) "http://" || startswith (add_scheme linha) "https://" = true.
Proof.
  unfold add_scheme.
  destruct (startswith linha "http://" || startswith linha "https://") eqn:E; [done|].
  simpl. unfold startswith. by destruct linha.
Qed.

Lemma read_urls_until_blank typed blank rest out urls :
  Forall (fun l => strip l <> "") typed -> strip blank = "" ->
  exists out',
    read_urls (typed ++ blank :: rest) out urls
    = (Return (urls ++ (add_scheme <$> (strip <$> typed))), mkConsole rest out').
Proof.
  intros Htyped Hblank. revert out urls.
  induction Htyped as [|l typed Hl _ IH]; intros out urls; simpl.
  - rewrite Hblank. rewrite decide_True by done. rewrite app_nil_r. eauto.
  - rewrite decide_False by done.
    destruct (IH (out ++ ["URL: "]) (urls ++ [add_scheme (strip l)])) as [out' ->].
    exists out'. by rewrite <- app_assoc.
Qed.

(** Without a blank line the input ends inside [input], which raises. *)
Lemma read_urls_eof lines out urls :
  Forall (fun l => strip l <> "") lines ->
  exists out', read_urls lines out urls = (Raise EOFError, mkConsole [] out').
Proof.
  intros Hlines. revert out urls.
  induction Hlines as [|l lines Hl _ IH]; intros out urls; simpl; [eauto|].
  rewrite decide_False by done. apply IH.
Qed.

Lemma get_urls_from_input_eof lines out :
  Forall (fun l => strip l <> "") lines ->
  exists out', get_urls_from_input (mkConsole lines out) = (Raise EOFError, mkConsole [] out').
Proof.
  intros Hlines. unfold get_urls_from_input. simpl.
  destruct (read_urls_eof lines
              ((out ++ ["Digite as URLs que você quer testar." +:+ newline]) ++
               [("Uma por linha. Deixe em branco e aperte Enter para finalizar." +:+ newline)
                  +:+ newline]) [] Hlines) as [out' ->].
  eauto.
Qed.

Lemma filter_first_occurrences (P : string -> Prop) `{!forall x, Decision (P x)} l :
  filter P (first_occurrences l) = first_occurrences (filter P l).
Proof.
  induction l as [|x l IH]; [done|]. simpl.
  rewrite !filter_cons. destruct (decide (P x)) as [HP|HP]; simpl.
  - rewrite <- IH. f_equal. rewrite !list_filter_filter.
    apply list_filter_iff. tauto.
  - rewrite <- IH. apply list_filter_filter_l. intros y Hy ->. done.
Qed.

(** The loop with the set [seen] computes the first occurrences. *)
Lemma remove_duplicates_spec urls seen uniq :
  remove_duplicates urls seen uniq
  = uniq ++ first_occurrences (filter (fun u => u ∉ seen) urls).
Proof.
  revert seen uniq. induction urls as [|u urls IH]; intros seen uniq; simpl.
  - by rewrite app_nil_r.
  - rewrite filter_cons. destruct (decide (u ∈ seen)) as [Hin|Hnot].
    + rewrite decide_False by tauto. apply IH.
    + rewrite decide_True by done. rewrite IH, <- app_assoc. simpl. do 2 f_equal.
      rewrite filter_first_occurrences, list_filter_filter.
      f_equal. apply list_filter_iff. intros y.
      rewrite not_elem_of_union, not_elem_of_singleton. tauto.
Qed.

Lemma first_occurrences_elem_of l x : x ∈ first_occurrences l <-> x ∈ l.
Proof.
  induction l as [|y l IH]; [done|]. simpl.
  rewrite !elem_of_cons, list_elem_of_filter, IH.
  destruct (decide (x = y)); tauto.
Qed.

Lemma first_occurrences_NoDup l : NoDup (first_occurrences l).
Proof.
  induction l as [|y l IH]; simpl; [constructor|].
  apply NoDup_cons. split.
  - rewrite list_elem_of_filter. tauto.
  - by apply NoDup_filter.
Qed.

Lemma first_occurrences_sublist l : sublist (first_occurrences l) l.
Proof.
  induction l as [|y l IH]; simpl; [done|].
  apply sublist_skip. etrans; [apply sublist_filter|done].
Qed.

(** An entry stands where it occurs first: the first occurrences of a list
    are those of any of its prefixes, followed by the new entries of the rest. *)
Lemma first_occurrences_app l1 l2 :
  first_occurrences (l1 ++ l2)
  = first_occurrences l1 ++ filter (fun y => y ∉ l1) (first_occurrences l2).
Proof.
  induction l1 as [|x l1 IH]; simpl.
  - induction (first_occurrences l2) as [|? ? IHl]; [done|].
    rewrite filter_cons_True by apply not_elem_of_nil. by f_equal.
  - f_equal. rewrite IH, filter_app, list_filter_filter. f_equal.
    apply list_filter_iff. intros y. rewrite not_elem_of_cons. tauto.
Qed.

Lemma filter_all (P : string -> Prop) `{!forall x, Decision (P x)} (l : list string) :
  (forall x, P x) -> filter P l = l.
Proof.
  intros HP. induction l as [|x l IH]; [done|].
  rewrite filter_cons_True by done. by f_equal.
Qed.

(** C8. When the user types entries and then a blank line, the function
    returns the entries (stripped), each one as it is when it starts with
    "http://" or "https://" and with "https://" put in front otherwise, with
    the duplicates removed and the first occurrences kept in their order. *)
Theorem get_urls_from_input_spec typed blank rest out :
  Forall (fun l => strip l <> "") typed -> strip blank = "" ->
  let entries := strip <$> typed in
  let urls := first_occurrences (default_to_https <$> entries) in
  (exists out',
     get_urls_from_input (mkConsole (typed ++ blank :: rest) out)
     = (Return urls, mkConsole rest out')) /\
  NoDup urls /\
  (forall u, u ∈ urls <-> exists e, e ∈ entries /\ u = default_to_https e) /\
  sublist urls (default_to_https <$> entries) /\
  Forall (fun u => startswith u "http://" || startswith u "https://" = true) urls.
Proof.
  intros Htyped Hblank entries urls. repeat split.
  - unfold get_urls_from_input. simpl.
    destruct (read_urls_until_blank typed blank rest
                ((out ++ ["Digite as URLs que você quer testar." +:+ newline]) ++
                 [("Uma por linha. Deixe em branco e aperte Enter para finalizar." +:+ newline)
                    +:+ newline]) [] Htyped Hblank) as [out' ->].
    exists out'. simpl. rewrite remove_duplicates_spec. simpl. do 2 f_equal.
    rewrite filter_all by apply not_elem_of_empty.
    unfold urls, entries. f_equal. apply list_fmap_ext. intros _ e _. apply add_scheme_default_to_https.
  - apply first_occurrences_NoDup.
  - intros Hu. apply first_occurrences_elem_of, list_elem_of_fmap in Hu as (e & -> & He). eauto.
  - intros (e & He & ->). apply first_occurrences_elem_of, list_elem_of_fmap. eauto.
  - apply first_occurrences_sublist.
  - apply Forall_forall. intros u Hu.
    apply first_occurrences_elem_of, list_elem_of_fmap in Hu as (e & -> & He).
    rewrite <- add_scheme_default_to_https. apply add_scheme_startswith.
Qed.

Lemma get_urls_from_input_spec_witness :
  exists out',
    get_urls_from_input
      (mkConsole ["example.com"; " http://a.example "; "example.com"; "https://example.com";
                  "  "; "later"] [])
    = (Return ["https://example.com"; "http://a.example"], mkConsole ["later"] out').
Proof.
  apply (get_urls_from_input_spec
           ["example.com"; " http://a.example "; "example.com"; "https://example.com"]
           "  " ["later"] []).
  - repeat (constructor; [by vm_compute|]). constructor.
  - reflexivity.
Defined.

(** ** [print_report] *)

Lemma Qle_bool_false x y : Qle_bool x y = false -> (y <= x)%Q.
Proof.
  intros H. apply Qlt_le_weak, Qnot_le_lt. intros Hle.
  apply Qle_bool_iff in Hle. congruence.
Qed.

Lemma insert_by_key_Permutation x l : insert_by_key x l ≡ₚ x :: l.
Proof.
  induction l as [|y l IH]; simpl; [done|].
  destruct (Qle_bool _ _); [done|]. rewrite IH. apply Permutation_swap.
Qed.

Lemma sorted_Permutation l : sorted l ≡ₚ l.
Proof.
  induction l as [|x l IH]; simpl; [done|].
  by rewrite insert_by_key_Permutation, IH.
Qed.

Lemma insert_by_key_Sorted x l :
  Sorted by_elapsed l -> Sorted by_elapsed (insert_by_key x l).
Proof.
  induction 1 as [|y l Hl IH Hhd]; simpl; [by repeat constructor|].
  destruct (Qle_bool (elapsed_key x) (elapsed_key y)) eqn:E.
  - apply Qle_bool_iff in E. by repeat constructor.
  - apply Qle_bool_false in E. constructor; [done|].
    destruct Hhd as [|z l Hyz]; simpl; [by constructor|].
    destruct (Qle_bool (elapsed_key x) (elapsed_key z)); by constructor.
Qed.

Lemma sorted_Sorted l : Sorted by_elapsed (sorted l).
Proof. induction l; simpl; [constructor | by apply insert_by_key_Sorted]. Qed.

Lemma sorted_StronglySorted l : StronglySorted by_elapsed (sorted l).
Proof.
  apply Sorted_StronglySorted; [|apply sorted_Sorted].
  intros a b c. unfold by_elapsed. apply Qle_trans.
Qed.

(** Equal keys keep their order: the sort is stable. *)
Lemma insert_by_key_filter (P : ProbeResult -> bool) x l :
  (forall y, In y l -> P y = true -> Qle_bool (elapsed_key x) (elapsed_key y) = true) ->
  List.filter P (insert_by_key x l) = List.filter P (x :: l).
Proof.
  induction l as [|y l IH]; intros Hle; simpl; [done|].
  destruct (Qle_bool (elapsed_key x) (elapsed_key y)) eqn:E; [done|]. simpl.
  destruct (P y) eqn:Py.
  - rewrite (Hle y) in E by (simpl; auto). done.
  - rewrite IH by (intros; apply Hle; simpl; auto). done.
Qed.

Lemma sorted_stable (k : Q) l :
  List.filter (fun r => Qeq_bool (elapsed_key r) k) (sorted l)
  = List.filter (fun r => Qeq_bool (elapsed_key r) k) l.
Proof.
  induction l as [|x l IH]; [done|]. cbn [sorted].
  destruct (Qeq_bool (elapsed_key x) k) eqn:Hx.
  - rewrite insert_by_key_filter; [simpl; by rewrite Hx, IH|].
    intros y _ Hy. apply Qeq_bool_iff in Hx, Hy. apply Qle_bool_iff.
    rewrite Hx, Hy. apply Qle_refl.
  - transitivity (List.filter (fun r => Qeq_bool (elapsed_key r) k) (sorted l));
      [|simpl; by rewrite Hx].
    clear IH. induction (sorted l) as [|y l' IH']; simpl; [by rewrite Hx|].
    destruct (Qle_bool _ _); simpl; [by rewrite Hx|]. by rewrite IH'.
Qed.

Lemma filter_negb_Permutation (f : ProbeResult -> bool) l :
  l ≡ₚ List.filter f l ++ List.filter (fun r => negb (f r)) l.
Proof.
  induction l as [|x l IH]; simpl; [done|].
  destruct (f x); simpl; [by constructor|].
  rewrite <- Permutation_middle. by constructor.
Qed.

Lemma stdout_print_all {A} (line : A -> string) (l : list A) c :
  stdout (foldl (fun c x => print (line x) c) c l)
  = stdout c ++ ((fun x => line x +:+ newline) <$> l).
Proof.
  revert c. induction l as [|x l IH]; intros c; simpl; [by rewrite app_nil_r|].
  rewrite IH. simpl. by rewrite <- app_assoc.
Qed.

Lemma fmap_imap_pair {A B} (f : nat * A -> B) (g : nat -> nat) (l : list A) :
  f <$> imap (fun i x => (g i, x)) l = imap (fun i x => f (g i, x)) l.
Proof.
  revert g. induction l as [|x l IH]; intros g; [done|].
  cbn [imap]. rewrite fmap_cons. f_equal. apply (IH (g ∘ S)).
Qed.

(** What [print_report] writes: the title, the successes in the order of
    [sorted] and numbered from 1 (or the line that says there is none), the
    failures in the order of the input under their heading, an empty line. *)
Lemma print_report_stdout fmt results c :
  stdout (print_report fmt results c)
  = stdout c
    ++ [(newline +:+ "=== HTTP Frequency — Resultados ===") +:+ newline]
    ++ match sorted (report_ok results) with
       | [] => [(newline +:+ "Nenhum site respondeu com sucesso.") +:+ newline]
       | oks => ((newline +:+ "Top mais rápidos:") +:+ newline)
                :: imap (fun i r => ok_line fmt (S i) r +:+ newline) oks
       end
    ++ match report_fail results with
       | [] => []
       | fails => ((newline +:+ "Falhas/erros:") +:+ newline)
                  :: ((fun r => fail_line r +:+ newline) <$> fails)
       end
    ++ [newline].
Proof.
  unfold print_report.
  destruct (sorted (report_ok results)) as [|r oks] eqn:Hok;
    destruct (report_fail results) as [|f fails] eqn:Hfail; cbn [stdout print];
    rewrite ?stdout_print_all; cbn [stdout print];
    rewrite ?stdout_print_all; cbn [stdout print];
    rewrite <- ?app_assoc; simpl; repeat f_equal.
  all: apply (fmap_imap_pair (fun ir => ok_line fmt (S ir.1) ir.2 +:+ newline) S).
Qed.

(** C9, the claim as stated fails. A result with [ok] and no [elapsed_s] is
    put in neither list, so the two lists do not partition the input; and a
    failure whose error is the empty string is shown with its status, though
    its error is present. *)
Lemma print_report_not_partition_by_ok :
  let r := mkProbeResult "https://example.org" true (Some 200%Z) None None None None in
  let f := mkProbeResult "https://example.org/missing" false (Some 404%Z) None None None
             (Some "") in
  (ok r = true /\ sorted (report_ok [r]) = [] /\ report_fail [r] = [] /\
   ~ [r] ≡ₚ sorted (report_ok [r]) ++ report_fail [r]) /\
  (is_Some (error f) /\
   fail_line f = " - https://example.org/missing  ->  erro: HTTP 404").
Proof.
  simpl. repeat split; try done.
  intros H. by apply Permutation_length in H.
Qed.

(** C9, amended. [print_report] lists as successes the results with [ok] and
    an [elapsed_s], in ascending order of [elapsed_s], and as failures the
    results without [ok], in the order of the input, each shown with its
    error when it has one that is not empty and otherwise with "HTTP" and
    its status. When every result with [ok] has an [elapsed_s], as those of
    [fetch_one] have, the two lists partition the input. *)
Theorem print_report_partition fmt results c :
  let oks := sorted (report_ok results) in
  let fails := report_fail results in
  stdout (print_report fmt results c)
  = stdout c
    ++ [(newline +:+ "=== HTTP Frequency — Resultados ===") +:+ newline]
    ++ match oks with
       | [] => [(newline +:+ "Nenhum site respondeu com sucesso.") +:+ newline]
       | _ => ((newline +:+ "Top mais rápidos:") +:+ newline)
              :: imap (fun i r => ok_line fmt (S i) r +:+ newline) oks
       end
    ++ match fails with
       | [] => []
       | _ => ((newline +:+ "Falhas/erros:") +:+ newline)
              :: ((fun r => fail_line r +:+ newline) <$> fails)
       end
    ++ [newline] /\
  oks ≡ₚ List.filter (fun r => ok r && bool_decide (is_Some (elapsed_s r))) results /\
  StronglySorted by_elapsed oks /\
  fails = List.filter (fun r => negb (ok r)) results /\
  (forall r e, error r = Some e -> e <> "" ->
     fail_line r = " - " +:+ url r +:+ "  ->  erro: " +:+ e) /\
  (forall r, error r = None \/ error r = Some "" ->
     fail_line r = " - " +:+ url r +:+ "  ->  erro: " +:+ "HTTP " +:+ str_optional_int (status r)) /\
  (Forall (fun r => ok r = true -> is_Some (elapsed_s r)) results ->
     oks ≡ₚ List.filter ok results /\ results ≡ₚ oks ++ fails).
Proof.
  intros oks fails. split; [|split; [|split; [|split; [|split; [|split]]]]].
  - rewrite print_report_stdout. fold oks fails. by destruct oks, fails.
  - apply sorted_Permutation.
  - apply sorted_StronglySorted.
  - done.
  - intros r e He Hne. unfold fail_line, error_or_status. rewrite He.
    by rewrite decide_False.
  - intros r [He|He]; unfold fail_line, error_or_status; by rewrite He.
  - intros Hwf.
    assert (report_ok results = List.filter ok results) as Heq.
    { unfold report_ok. apply List.filter_ext_in. intros r Hr.
      rewrite Forall_forall in Hwf. destruct (ok r) eqn:Hok; [|done].
      simpl. apply bool_decide_eq_true. apply Hwf; [|done]. by apply list_elem_of_In. }
    unfold oks, fails, report_fail. rewrite Heq.
    split; [apply sorted_Permutation|].
    rewrite sorted_Permutation. apply filter_negb_Permutation.
Qed.

Lemma print_report_partition_witness :
  let results :=
    [mkProbeResult "https://slow.example" true (Some 200%Z) (Some (1 # 2)) (Some 10%Z)
       (Some "https://slow.example") None;
     mkProbeResult "https://down.example" false None None None None (Some "ConnectError");
     mkProbeResult "https://fast.example" true (Some 200%Z) (Some (1 # 4)) (Some 10%Z)
       (Some "https://fast.example") None;
     mkProbeResult "https://example.org/missing" false (Some 404%Z) (Some (1 # 3)) (Some 0%Z)
       (Some "https://example.org/missing") None] in
  sorted (report_ok results) ≡ₚ List.filter ok results /\
  results ≡ₚ sorted (report_ok results) ++ report_fail results.
Proof.
  intros results.
  apply (print_report_partition (fun _ => "") results (mkConsole [] [])).
  repeat constructor; simpl; eauto; discriminate.
Defined.

(** * Further properties *)

(** ** The calls of [client.request] during a run *)

Lemma requested_all_waiting method (urls : list string) :
  requested method urls ((fun _ => Waiting) <$> urls) = [].
Proof. induction urls; simpl; auto. Qed.

Lemma requested_all_done method (urls : list string) (rs : list ProbeResult) :
  length rs = length urls ->
  requested method urls (Done <$> rs) = (fun u => (method, u)) <$> urls.
Proof.
  revert rs. induction urls as [|u urls IH]; intros [|r rs] Hlen; simplify_eq/=; [done|].
  f_equal. by apply IH.
Qed.

Lemma requested_start method (urls : list string) (ts : list task) i u :
  urls !! i = Some u -> ts !! i = Some Waiting ->
  requested method urls (<[i := InFlight]> ts) ≡ₚ (method, u) :: requested method urls ts.
Proof.
  revert ts i. induction urls as [|u' urls IH]; intros [|t ts] [|i] Hu Ht; simplify_eq/=;
    [done|].
  destruct t; rewrite (IH _ _ Hu Ht); [done|by apply Permutation_swap..].
Qed.

Lemma requested_settle method (urls : list string) (ts : list task) i r :
  ts !! i = Some InFlight ->
  requested method urls (<[i := settle r]> ts) = requested method urls ts.
Proof.
  revert ts i. induction urls as [|u' urls IH]; intros [|t ts] [|i] Ht; simplify_eq/=;
    try done.
  - by destruct r.
  - by rewrite (IH _ _ Ht).
Qed.


(** At any time one call was made for each task that has started, and none
    for a task that still waits. *)
Lemma advance_issued w client method urls i s s' :
  issued s ≡ₚ requested method urls (tasks s) ->
  advance w client method urls i s = Some s' ->
  issued s' ≡ₚ requested method urls (tasks s').
Proof.
  intros Hiss Hadv.
  destruct (advance_cases _ _ _ _ _ _ _ Hadv) as (u & Hu & [(Ht & _ & ->) | (Ht & ->)]);
    simpl.
  - rewrite requested_start by done. rewrite <- Hiss. by rewrite Permutation_app_comm.
  - by rewrite requested_settle.
Qed.

Lemma rtc_step_issued w client method urls s s' :
  issued s ≡ₚ requested method urls (tasks s) ->
  rtc (step w client method urls) s s' ->
  issued s' ≡ₚ requested method urls (tasks s').
Proof.
  intros Hiss Hrtc. induction Hrtc as [|s1 s2 s3 [i Hi] _ IH]; [done|].
  eauto using advance_issued.
Qed.

Lemma run_probe_loop_issued w sched urls concurrency timeout method :
  let s := (run_probe_loop w sched urls concurrency timeout method).2 in
  issued s ≡ₚ requested method urls (tasks s).
Proof.
  unfold run_probe_loop. destruct (Semaphore concurrency) as [value|e]; simpl.
  - destruct (event_loop _ _ _ _ _ _ _ _) as [r s] eqn:E. simpl.
    apply event_loop_spec in E as [Hrtc _].
    eapply rtc_step_issued; [|done]. simpl. by rewrite requested_all_waiting.
  - by destruct urls.
Qed.

(** What a run returns, with the state it ends in. *)
Lemma run_probe_loop_returned w sched urls concurrency timeout method rs s :
  run_probe_loop w sched urls concurrency timeout method = (Finished (Return rs), s) ->
  (0 <= concurrency)%Z /\
  loop_inv w (make_client timeout) method urls concurrency s /\
  tasks s = Done <$> rs /\ length rs = length urls /\
  forall i r, rs !! i = Some r ->
    exists u, urls !! i = Some u /\ fetch_one w i (make_client timeout) u method = Return r.
Proof.
  unfold run_probe_loop, Semaphore.
  destruct (concurrency <? 0)%Z eqn:Hc; [done|]. apply Z.ltb_ge in Hc.
  intros [Hrtc Hg]%event_loop_spec.
  assert (loop_inv w (make_client timeout) method urls concurrency s) as Hinv.
  { eapply rtc_step_inv; [|done]. by apply create_tasks_inv. }
  destruct (gather_results _ _ _ _ _ _ _ Hinv Hg) as [Hlen Hrs].
  split; [done|]. split; [done|]. split; [|done].
  unfold gather in Hg. destruct (first_exception (tasks s)); [done|].
  destruct (mapM task_result (tasks s)) as [rs'|] eqn:Hm; [|done].
  simplify_eq/=. by apply mapM_task_result.
Qed.


(** X2. Whenever [run_probe] returns, it has called [client.request] exactly
    once for each entry of the list (twice for a URL that is there twice),
    each time with the method of the run. *)
Theorem requests_issued_exactly_once w sched urls concurrency timeout method rs :
  run_probe w sched urls concurrency timeout method = Finished (Return rs) ->
  requests_issued w sched urls concurrency timeout method
  ≡ₚ (fun u => (method, u)) <$> urls.
Proof.
  unfold run_probe, requests_issued. intros Hrun.
  pose proof (run_probe_loop_issued w sched urls concurrency timeout method) as Hiss.
  destruct (run_probe_loop w sched urls concurrency timeout method) as [r s] eqn:E.
  simpl in *. subst r.
  apply run_probe_loop_returned in E as (_ & _ & Ht & Hlen & _).
  rewrite Hiss, Ht. by rewrite requested_all_done.
Qed.

Lemma requests_issued_exactly_once_witness :
  requests_issued sample_world (fun t => t)
    ["https://example.org"; "https://down.example"; "https://example.org"] 2 5 "GET"
  ≡ₚ [("GET", "https://example.org"); ("GET", "https://down.example");
      ("GET", "https://example.org")].
Proof.
  eapply (requests_issued_exactly_once sample_world (fun t => t)
            ["https://example.org"; "https://down.example"; "https://example.org"] 2 5 "GET").
  by vm_compute.
Defined.

(** ** How a run ends *)


Lemma fetch_one_Return_captured w k client u method r :
  fetch_one w k client u method = Return r ->
  match request w client method u k with
  | Responds _ => True
  | Raises e => is_HTTPError e = true
  end.
Proof.
  unfold fetch_one. destruct (request w client method u k) as [resp|e]; [done|].
  by destruct (is_HTTPError e).
Qed.

(** X4. What [run_probe] returns does not depend on the schedule, that is on
    the order in which the tasks get their slots and the answers arrive: if
    it returns a list under one schedule, it returns the same list under
    every schedule. *)
Theorem run_probe_schedule_independent w sched1 sched2 urls concurrency timeout method rs :
  run_probe w sched1 urls concurrency timeout method = Finished (Return rs) ->
  run_probe w sched2 urls concurrency timeout method = Finished (Return rs).
Proof.
  intros Hrun. unfold run_probe in Hrun.
  destruct (run_probe_loop w sched1 urls concurrency timeout method) as [r s] eqn:E.
  simpl in Hrun. subst r.
  destruct (run_probe_loop_returned _ _ _ _ _ _ _ _ E) as (Hc & _ & _ & Hlen & Hrs).
  destruct (decide (concurrency = 0%Z)) as [->|Hne].
  - unfold run_probe_loop in E. rewrite Semaphore_Return, event_loop_no_slot in E by done.
    destruct urls; [|done]. destruct rs; [|done]. by vm_compute.
  - assert (captured w timeout method urls) as Hcap.
    { intros i u Hu.
      assert (is_Some (rs !! i)) as [r Hr].
      { apply lookup_lt_is_Some. rewrite Hlen. by eapply lookup_lt_Some. }
      destruct (Hrs _ _ Hr) as (u' & Hu' & Hf). assert (u' = u) as -> by congruence.
      by eapply fetch_one_Return_captured. }
    destruct (run_probe_returns w sched2 urls concurrency timeout method)
      as (rs2 & s2 & Hrun2 & Hlen2 & _ & Hrs2); [lia|done|].
    unfold run_probe. rewrite Hrun2. simpl. do 2 f_equal.
    apply list_eq_same_length with (length urls); [done|done|].
    intros i r2 r1 _ H2 H1.
    destruct (Hrs _ _ H1) as (u & Hu & Hf), (Hrs2 _ _ H2) as (u2 & Hu2 & Hf2).
    congruence.
Qed.

Lemma run_probe_schedule_independent_witness :
  run_probe sample_world (fun t => 2 * t)
    ["https://example.org"; "https://down.example"; "https://example.org/missing"] 2 5 "GET"
  = Finished (Return
      [mkProbeResult "https://example.org" true (Some 200%Z) (Some (30 # 100)) (Some 0%Z)
         (Some "https://example.org") None;
       mkProbeResult "https://down.example" false None None None None (Some "ConnectError");
       mkProbeResult "https://example.org/missing" false (Some 404%Z) (Some (30 # 100))
         (Some 0%Z) (Some "https://example.org/missing") None]).
Proof.
  apply (run_probe_schedule_independent sample_world first_ready (fun t => 2 * t)
           ["https://example.org"; "https://down.example"; "https://example.org/missing"]
           2 5 "GET").
  by vm_compute.
Defined.

(** X5. No slot is lost: when [run_probe] returns, no task is in flight and
    the counter of the semaphore is back at [concurrency]. *)
Theorem run_probe_frees_all_slots w sched urls concurrency timeout method rs :
  run_probe w sched urls concurrency timeout method = Finished (Return rs) ->
  let s := (run_probe_loop w sched urls concurrency timeout method).2 in
  in_flight (tasks s) = 0 /\ sem_value s = concurrency.
Proof.
  unfold run_probe. intros Hrun.
  destruct (run_probe_loop w sched urls concurrency timeout method) as [r s] eqn:E.
  simpl in *. subst r.
  apply run_probe_loop_returned in E as (_ & [_ Hslots _ _ _] & Ht & _).
  assert (in_flight (tasks s) = 0) as Hfl.
  { rewrite Ht. unfold in_flight. clear. induction rs; simpl; auto. }
  split; [done|]. lia.
Qed.

Lemma run_probe_frees_all_slots_witness :
  let s := (run_probe_loop sample_world (fun t => t)
              ["https://example.org"; "https://down.example"; "https://example.org"]
              2 5 "GET").2 in
  in_flight (tasks s) = 0 /\ sem_value s = 2%Z.
Proof.
  eapply (run_probe_frees_all_slots sample_world (fun t => t)
            ["https://example.org"; "https://down.example"; "https://example.org"] 2 5 "GET").
  by vm_compute.
Defined.

(** X6. [run_probe] raises nothing of its own: an exception that leaves it is
    the [ValueError] of a semaphore created with a negative value, or, with
    one slot or more, an exception that [client.request] raised for one of
    the URLs and that is not an [httpx.HTTPError]. An HTTP status or an
    [httpx.HTTPError] never makes it raise. *)
Theorem run_probe_raises_only w sched urls concurrency timeout method e :
  run_probe w sched urls concurrency timeout method = Finished (Raise e) ->
  ((concurrency < 0)%Z /\ e = ValueError) \/
  ((1 <= concurrency)%Z /\
   exists i u, urls !! i = Some u /\
     request w (make_client timeout) method u i = Raises e /\ is_HTTPError e = false).
Proof.
  intros Hrun.
  destruct (Z.lt_trichotomy concurrency 0) as [Hneg|[->|Hpos]].
  - left. split; [done|]. unfold run_probe, run_probe_loop in Hrun.
    rewrite Semaphore_Raise in Hrun by done. by simplify_eq/=.
  - unfold run_probe, run_probe_loop in Hrun.
    rewrite Semaphore_Return, event_loop_no_slot in Hrun by done. by destruct urls.
  - right. split; [lia|]. eapply run_probe_raised; [|done]. lia.
Qed.

Lemma run_probe_raises_only_witness :
  ((5 < 0)%Z /\ InvalidURL = ValueError) \/
  ((1 <= 5)%Z /\
   exists i u, ["https://example.org"; "https://example.com:abc"] !! i = Some u /\
     request sample_world (make_client 5) "GET" u i = Raises InvalidURL /\
     is_HTTPError InvalidURL = false).
Proof.
  apply (run_probe_raises_only sample_world first_ready
           ["https://example.org"; "https://example.com:abc"] 5 5 "GET" InvalidURL).
  by vm_compute.
Defined.

(** ** From the probes to the report *)

Lemma fetch_one_ok_elapsed w k client u method r :
  fetch_one w k client u method = Return r -> ok r = true -> is_Some (elapsed_s r).
Proof.
  unfold fetch_one. destruct (request w client method u k) as [resp|e].
  - intros [= <-] _. simpl. eauto.
  - destruct (is_HTTPError e); [|done]. by intros [= <-].
Qed.

(** X7. The report of what [run_probe] returned leaves no result out and
    shows none twice: the successes are exactly the results with [ok], and
    the successes and the failures together are the results, one line for
    each URL. *)
Theorem run_probe_report_complete w sched urls concurrency timeout method rs :
  run_probe w sched urls concurrency timeout method = Finished (Return rs) ->
  report_ok rs = List.filter ok rs /\
  rs ≡ₚ sorted (report_ok rs) ++ report_fail rs /\
  length (sorted (report_ok rs)) + length (report_fail rs) = length urls.
Proof.
  unfold run_probe. intros Hrun.
  destruct (run_probe_loop w sched urls concurrency timeout method) as [r s] eqn:E.
  simpl in Hrun. subst r.
  apply run_probe_loop_returned in E as (_ & _ & _ & Hlen & Hrs).
  assert (report_ok rs = List.filter ok rs) as Heq.
  { unfold report_ok. apply List.filter_ext_in. intros r Hr.
    destruct (ok r) eqn:Hok; [|done]. simpl. apply bool_decide_eq_true.
    apply list_elem_of_In, list_elem_of_lookup in Hr as [i Hi].
    destruct (Hrs _ _ Hi) as (u & _ & Hf). by eapply fetch_one_ok_elapsed. }
  assert (rs ≡ₚ sorted (report_ok rs) ++ report_fail rs) as Hperm.
  { rewrite sorted_Permutation, Heq. apply filter_negb_Permutation. }
  split; [done|]. split; [done|].
  rewrite <- length_app, <- Hperm. done.
Qed.

Lemma run_probe_report_complete_witness :
  let rs :=
    [mkProbeResult "https://example.org" true (Some 200%Z) (Some (30 # 100)) (Some 0%Z)
       (Some "https://example.org") None;
     mkProbeResult "https://down.example" false None None None None (Some "ConnectError");
     mkProbeResult "https://example.org/missing" false (Some 404%Z) (Some (30 # 100))
       (Some 0%Z) (Some "https://example.org/missing") None] in
  report_ok rs = List.filter ok rs /\
  rs ≡ₚ sorted (report_ok rs) ++ report_fail rs /\
  length (sorted (report_ok rs)) + length (report_fail rs) = 3.
Proof.
  apply (run_probe_report_complete sample_world first_ready
           ["https://example.org"; "https://down.example"; "https://example.org/missing"]
           1 5 "GET").
  by vm_compute.
Defined.

(** X8. How a failed probe is shown in the report. When the server answered,
    the line of the result shows "HTTP" and the status code; when the request
    raised an [httpx.HTTPError], it shows the name of the class of the
    exception (and "HTTP None" if that name were empty). *)
Theorem fetch_one_fail_line w k client u method r :
  fetch_one w k client u method = Return r -> ok r = false ->
  fail_line r
  = " - " +:+ u +:+ "  ->  erro: " +:+
    match request w client method u k with
    | Responds resp => "HTTP " +:+ str_int (status_code resp)
    | Raises e => if decide (class_name e = "") then "HTTP None" else class_name e
    end.
Proof.
  unfold fetch_one, fail_line, error_or_status.
  destruct (request w client method u k) as [resp|e].
  - by intros [= <-] _.
  - destruct (is_HTTPError e); [|done]. intros [= <-] _. simpl.
    by destruct (decide (class_name e = "")).
Qed.

Lemma fetch_one_fail_line_witness :
  fail_line (mkProbeResult "https://example.org/missing" false (Some 404%Z)
               (Some ((4 # 10) - (1 # 10))%Q) (Some 0%Z) (Some "https://example.org/missing")
               None)
  = " - https://example.org/missing  ->  erro: HTTP 404".
Proof.
  apply (fetch_one_fail_line sample_world 1 (make_client 5) "https://example.org/missing" "GET");
    reflexivity.
Defined.

(** X9. Ties keep the order of the input: among the successes of the report,
    the results with one and the same [elapsed_s] stand in the order in which
    [run_probe] returned them. *)
Theorem print_report_ties_in_input_order (k : Q) results :
  List.filter (fun r => Qeq_bool (elapsed_key r) k) (sorted (report_ok results))
  = List.filter (fun r => Qeq_bool (elapsed_key r) k) (report_ok results).
Proof. apply sorted_stable. Qed.

(** ** More on [get_urls_from_input] *)

(** The run of the loop on entries followed by a blank line, with what it
    writes: one prompt for each line read. *)
Lemma read_urls_until_blank_stdout typed blank rest out urls :
  Forall (fun l => strip l <> "") typed -> strip blank = "" ->
  read_urls (typed ++ blank :: rest) out urls
  = (Return (urls ++ (add_scheme <$> (strip <$> typed))),
     mkConsole rest (out ++ replicate (S (length typed)) "URL: ")).
Proof.
  intros Htyped Hblank. revert out urls.
  induction Htyped as [|l typed Hl _ IH]; intros out urls; simpl.
  - rewrite Hblank. rewrite decide_True by done. by rewrite app_nil_r.
  - rewrite decide_False by done. rewrite IH. by rewrite <- !app_assoc.
Qed.

Lemma get_urls_from_input_returns typed blank rest out :
  Forall (fun l => strip l <> "") typed -> strip blank = "" ->
  get_urls_from_input (mkConsole (typed ++ blank :: rest) out)
  = (Return (first_occurrences (add_scheme <$> (strip <$> typed))),
     mkConsole rest
       (out ++ ["Digite as URLs que você quer testar." +:+ newline;
                ("Uma por linha. Deixe em branco e aperte Enter para finalizar." +:+ newline)
                  +:+ newline]
            ++ replicate (S (length typed)) "URL: ")).
Proof.
  intros Htyped Hblank. unfold get_urls_from_input. simpl.
  rewrite read_urls_until_blank_stdout by done. simpl.
  rewrite remove_duplicates_spec, filter_all by apply not_elem_of_empty.
  simpl. by rewrite <- !app_assoc.
Qed.

(** X10. When the input ends before a blank line is read (the user closes
    the input), [get_urls_from_input] raises [EOFError]: the URLs typed so far
    are not returned. *)
Theorem get_urls_from_input_raises_at_eof lines out :
  Forall (fun l => strip l <> "") lines ->
  (get_urls_from_input (mkConsole lines out)).1 = Raise EOFError /\
  stdin (get_urls_from_input (mkConsole lines out)).2 = [].
Proof.
  intros Hlines. destruct (get_urls_from_input_eof lines out Hlines) as [out' ->]. done.
Qed.

Lemma get_urls_from_input_raises_at_eof_witness :
  (get_urls_from_input (mkConsole ["example.com"; "example.org"] [])).1 = Raise EOFError /\
  stdin (get_urls_from_input (mkConsole ["example.com"; "example.org"] [])).2 = [].
Proof.
  apply (get_urls_from_input_raises_at_eof ["example.com"; "example.org"] []).
  repeat (constructor; [by vm_compute|]). constructor.
Defined.

Lemma first_occurrences_nil l : first_occurrences l = [] <-> l = [].
Proof. by destruct l. Qed.

(** X11. Of entries followed by a blank line, [get_urls_from_input] returns
    at most one URL for each entry, and it returns the empty list exactly
    when the first line read is the blank one. It reads the blank line and no
    further, and writes one prompt for each line it read. *)
Theorem get_urls_from_input_count typed blank rest out :
  Forall (fun l => strip l <> "") typed -> strip blank = "" ->
  exists urls out',
    get_urls_from_input (mkConsole (typed ++ blank :: rest) out)
    = (Return urls, mkConsole rest (out ++ out')) /\
    length urls <= length typed /\
    (urls = [] <-> typed = []) /\
    length (List.filter (fun s => bool_decide (s = "URL: ")) out') = S (length typed).
Proof.
  intros Htyped Hblank. eexists _, _.
  split; [by rewrite get_urls_from_input_returns|].
  split; [|split].
  - etrans; [apply sublist_length, first_occurrences_sublist|]. by rewrite !length_fmap.
  - rewrite first_occurrences_nil. split.
    + intros H. by do 2 apply fmap_nil_inv in H.
    + by intros ->.
  - rewrite List.filter_app, length_app.
    replace (length (List.filter _ [_; _])) with 0 by (by vm_compute).
    generalize (S (length typed)). intros n.
    induction n as [|n IH]; [done|]. simpl in *. by rewrite IH.
Qed.

Lemma get_urls_from_input_count_witness :
  exists urls out',
    get_urls_from_input
      (mkConsole ["example.com"; " example.com"; "http://a.example"; ""; "5"] ["> "])
    = (Return urls, mkConsole ["5"] (["> "] ++ out')) /\
    length urls <= 3 /\
    (urls = [] <-> ["example.com"; " example.com"; "http://a.example"] = []) /\
    length (List.filter (fun s => bool_decide (s = "URL: ")) out') = 4.
Proof.
  apply (get_urls_from_input_count ["example.com"; " example.com"; "http://a.example"]
           "" ["5"] ["> "]).
  - repeat (constructor; [by vm_compute|]). constructor.
  - reflexivity.
Defined.

(** X12. Entries typed later never change what the earlier ones gave: the
    URLs of a first batch of entries followed by a second batch are the URLs
    of the first batch, in their order, followed by the URLs of the second
    batch that the first batch did not give. *)
Theorem get_urls_from_input_append typed1 typed2 blank rest out :
  Forall (fun l => strip l <> "") typed1 -> Forall (fun l => strip l <> "") typed2 ->
  strip blank = "" ->
  exists urls1 urls2,
    (get_urls_from_input (mkConsole (typed1 ++ blank :: rest) out)).1 = Return urls1 /\
    (get_urls_from_input (mkConsole (typed2 ++ blank :: rest) out)).1 = Return urls2 /\
    (get_urls_from_input (mkConsole ((typed1 ++ typed2) ++ blank :: rest) out)).1
    = Return (urls1 ++ filter (fun u => u ∉ urls1) urls2).
Proof.
  intros H1 H2 Hblank.
  rewrite !get_urls_from_input_returns by (done || by apply Forall_app).
  eexists _, _. split; [done|]. split; [done|]. simpl. f_equal.
  rewrite !fmap_app, first_occurrences_app. f_equal.
  apply list_filter_iff. intros u. by rewrite first_occurrences_elem_of.
Qed.

Lemma get_urls_from_input_append_witness :
  exists urls1 urls2,
    (get_urls_from_input (mkConsole (["a.example"; "b.example"] ++ "" :: []) [])).1
    = Return urls1 /\
    (get_urls_from_input (mkConsole (["b.example"; "c.example"] ++ "" :: []) [])).1
    = Return urls2 /\
    (get_urls_from_input
       (mkConsole ((["a.example"; "b.example"] ++ ["b.example"; "c.example"]) ++ "" :: []) [])).1
    = Return (urls1 ++ filter (fun u => u ∉ urls1) urls2).
Proof.
  apply (get_urls_from_input_append ["a.example"; "b.example"] ["b.example"; "c.example"]
           "" [] []).
  - repeat (constructor; [by vm_compute|]). constructor.
  - repeat (constructor; [by vm_compute|]). constructor.
  - reflexivity.
Defined.

(** ** [main] *)

Lemma print_mkConsole s lines out :
  print s (mkConsole lines out) = mkConsole lines (out ++ [s +:+ newline]).
Proof. reflexivity. Qed.

Lemma input_mkConsole prompt l lines out :
  input prompt (mkConsole (l :: lines) out) = (Return l, mkConsole lines (out ++ [prompt])).
Proof. reflexivity. Qed.

Section MainFacts.
Variable int_of_str : string -> option Z.
Variable float_of_str : string -> option Q.
Variable str_of_float : Q -> string.
Variable format_7_1f : Q -> string.
Variable w : World.
Variable sched : nat -> nat.

Local Abbreviation run_main :=
  (main int_of_str float_of_str str_of_float format_7_1f w sched).
Local Abbreviation report_run := (probe_and_report format_7_1f w sched).

(** [main] on entries, a blank line and two answers: it probes the URLs of
    the entries with the concurrency and the timeout of the answers, or with
    5 for an answer that is blank or that [int] or [float] refuses. *)
Lemma main_probes typed blank cline tline rest out :
  Forall (fun l => strip l <> "") typed -> typed <> [] -> strip blank = "" ->
  exists out',
    run_main (mkConsole (typed ++ blank :: cline :: tline :: rest) out)
    = report_run
        (first_occurrences (add_scheme <$> (strip <$> typed)))
        (if decide (strip cline = "") then 5%Z else default 5%Z (int_of_str (strip cline)))
        (if decide (strip tline = "") then 5%Q else default 5%Q (float_of_str (strip tline)))
        "GET" (mkConsole rest out').
Proof.
  intros Htyped Hne Hblank. unfold main. rewrite print_mkConsole.
  rewrite get_urls_from_input_returns by done.
  destruct typed as [|l typed]; [done|]. rewrite !fmap_cons. cbn [first_occurrences].
  unfold read_concurrency, read_timeout. rewrite input_mkConsole.
  destruct (decide (strip cline = "")); [|destruct (int_of_str (strip cline))];
    rewrite input_mkConsole;
    (destruct (decide (strip tline = "")); [|destruct (float_of_str (strip tline))]);
    rewrite print_mkConsole; eauto.
Qed.

Lemma print_report_stdin fmt results c : stdin (print_report fmt results c) = stdin c.
Proof.
  assert (forall {A} (line : A -> string) (l : list A) c,
            stdin (foldl (fun c x => print (line x) c) c l) = stdin c) as Hfold.
  { intros A line l. induction l as [|x l IH]; intros c'; simpl; [done|]. by rewrite IH. }
  assert (forall s c', stdin (print s c') = stdin c') as Hprint by done.
  unfold print_report.
  destruct (sorted (report_ok results)), (report_fail results);
    by repeat (rewrite Hprint || rewrite Hfold).
Qed.

Lemma run_probe_loop_negative sched' urls concurrency timeout method :
  (concurrency < 0)%Z ->
  run_probe_loop w sched' urls concurrency timeout method
  = (Finished (Raise ValueError), mkLoop concurrency [] []).
Proof. intros Hc. unfold run_probe_loop. by rewrite Semaphore_Raise. Qed.

Lemma run_probe_loop_no_slot sched' u urls timeout method :
  run_probe_loop w sched' (u :: urls) 0 timeout method
  = (Deadlock, create_tasks (u :: urls) 0).
Proof. unfold run_probe_loop. by rewrite Semaphore_Return, event_loop_no_slot. Qed.

(** What [main] does once the URLs and the two answers are read. *)
Lemma main_outcome typed blank cline tline rest out :
  Forall (fun l => strip l <> "") typed -> typed <> [] -> strip blank = "" ->
  let urls := first_occurrences (add_scheme <$> (strip <$> typed)) in
  let concurrency :=
    if decide (strip cline = "") then 5%Z else default 5%Z (int_of_str (strip cline)) in
  let timeout :=
    if decide (strip tline = "") then 5%Q else default 5%Q (float_of_str (strip tline)) in
  let m := run_main (mkConsole (typed ++ blank :: cline :: tline :: rest) out) in
  main_requests m = requests_issued w sched urls concurrency timeout "GET" /\
  main_end m = match run_probe w sched urls concurrency timeout "GET" with
               | Finished (Return _) => Exits
               | Finished (Raise e) => Crashes e
               | _ => Hangs
               end /\
  stdin (main_console m) = rest.
Proof.
  intros Htyped Hne Hblank urls concurrency timeout m.
  destruct (main_probes typed blank cline tline rest out Htyped Hne Hblank) as [out' Hm].
  unfold m. rewrite Hm. fold urls concurrency timeout.
  unfold probe_and_report, requests_issued, run_probe.
  destruct (run_probe_loop w sched urls concurrency timeout "GET") as [[[rs|e]| |] s];
    cbn [main_requests main_end main_console fst snd]; rewrite ?print_report_stdin; done.
Qed.

(** X13. When the first line typed is blank, [main] says that no URL was
    given and returns: it asks for neither the concurrency nor the timeout,
    reads nothing more, and makes no request. *)
Theorem main_without_urls blank rest out :
  strip blank = "" ->
  run_main (mkConsole (blank :: rest) out)
  = mkMainRun Exits
      (mkConsole rest
         (out ++ ["=== HTTP Frequency ===" +:+ newline;
                  "Digite as URLs que você quer testar." +:+ newline;
                  ("Uma por linha. Deixe em branco e aperte Enter para finalizar."
                     +:+ newline) +:+ newline;
                  "URL: ";
                  "Nenhuma URL informada. Encerrando." +:+ newline]))
      [].
Proof.
  intros Hblank. unfold main. rewrite print_mkConsole.
  rewrite (get_urls_from_input_returns [] blank rest) by done.
  cbn [fmap list_fmap first_occurrences]. rewrite print_mkConsole.
  simpl. by rewrite <- !app_assoc.
Qed.


(** X15. [main] does not check the concurrency it reads. A negative integer
    makes it end with the [ValueError] of the semaphore, and zero makes it
    wait for ever; in both cases it has announced the test and makes no
    request. *)
Theorem main_unchecked_concurrency typed blank cline tline rest out n :
  Forall (fun l => strip l <> "") typed -> typed <> [] -> strip blank = "" ->
  strip cline <> "" -> int_of_str (strip cline) = Some n -> (n <= 0)%Z ->
  let m := run_main (mkConsole (typed ++ blank :: cline :: tline :: rest) out) in
  main_end m = (if (n <? 0)%Z then Crashes ValueError else Hangs) /\
  main_requests m = [].
Proof.
  intros Htyped Hne Hblank Hc Hint Hn m.
  destruct (main_outcome typed blank cline tline rest out Htyped Hne Hblank)
    as (Hreq & Hend & _).
  fold m in Hreq, Hend. rewrite Hreq, Hend. clear Hreq Hend.
  rewrite decide_False, Hint by done. simpl.
  unfold run_probe, requests_issued.
  destruct (n <? 0)%Z eqn:E.
  - apply Z.ltb_lt in E. by rewrite run_probe_loop_negative.
  - apply Z.ltb_ge in E. assert (n = 0%Z) as -> by lia.
    destruct typed as [|l typed]; [done|]. rewrite !fmap_cons. cbn [first_occurrences].
    by rewrite run_probe_loop_no_slot.
Qed.

(** X16. With one slot or more, when every request is answered or fails with
    an [httpx.HTTPError], [main] returns after exactly one request, with
    "GET", for each of the URLs of the entries without their duplicates. *)
Theorem main_probes_each_url_once typed blank cline tline rest out :
  Forall (fun l => strip l <> "") typed -> typed <> [] -> strip blank = "" ->
  let urls := first_occurrences (add_scheme <$> (strip <$> typed)) in
  let concurrency :=
    if decide (strip cline = "") then 5%Z else default 5%Z (int_of_str (strip cline)) in
  let timeout :=
    if decide (strip tline = "") then 5%Q else default 5%Q (float_of_str (strip tline)) in
  (1 <= concurrency)%Z -> captured w timeout "GET" urls ->
  let m := run_main (mkConsole (typed ++ blank :: cline :: tline :: rest) out) in
  main_end m = Exits /\
  main_requests m ≡ₚ (fun u => ("GET", u)) <$> urls /\
  NoDup (main_requests m).
Proof.
  intros Htyped Hne Hblank urls concurrency timeout Hc Hcap m.
  destruct (main_outcome typed blank cline tline rest out Htyped Hne Hblank)
    as (Hreq & Hend & _).
  fold m urls concurrency timeout in Hreq, Hend. rewrite Hreq, Hend. clear Hreq Hend.
  destruct (run_probe_returns w sched urls concurrency timeout "GET" Hc Hcap)
    as (rs & s & Hrun & Hlen & _).
  unfold run_probe, requests_issued.
  pose proof (run_probe_loop_issued w sched urls concurrency timeout "GET") as Hiss.
  rewrite Hrun in *. simpl in *.
  apply run_probe_loop_returned in Hrun as (_ & _ & Ht & _).
  rewrite Ht, requested_all_done in Hiss by done.
  split; [done|]. split; [done|]. rewrite Hiss.
  apply NoDup_fmap_2; [by intros ? ? [= ->]|]. apply first_occurrences_NoDup.
Qed.

(** X17. When the input ends before [main] has read all it asks for (in the
    URLs, at the question about the concurrency or at the one about the
    timeout), [main] ends with [EOFError] and makes no request: the
    [except ValueError] around the two questions does not catch it. *)
Theorem main_input_ends_early typed blank cline out :
  Forall (fun l => strip l <> "") typed -> strip blank = "" ->
  (main_end (run_main (mkConsole typed out)) = Crashes EOFError /\
   main_requests (run_main (mkConsole typed out)) = []) /\
  (typed <> [] ->
   (main_end (run_main (mkConsole (typed ++ [blank]) out)) = Crashes EOFError /\
    main_requests (run_main (mkConsole (typed ++ [blank]) out)) = []) /\
   (main_end (run_main (mkConsole (typed ++ [blank; cline]) out)) = Crashes EOFError /\
    main_requests (run_main (mkConsole (typed ++ [blank; cline]) out)) = [])).
Proof.
  intros Htyped Hblank. split.
  - unfold main. rewrite print_mkConsole.
    by destruct (get_urls_from_input_eof typed
                   (out ++ ["=== HTTP Frequency ===" +:+ newline]) Htyped) as [out' ->].
  - intros Hne. unfold main. rewrite !print_mkConsole.
    rewrite !get_urls_from_input_returns by done.
    destruct typed as [|l typed]; [done|]. rewrite !fmap_cons. cbn [first_occurrences].
    split; [done|].
    unfold read_concurrency. rewrite input_mkConsole.
    by destruct (decide (strip cline = "")); [|destruct (int_of_str (strip cline))].
Qed.
End MainFacts.

Lemma main_without_urls_witness :
  main sample_int sample_float sample_str_of_float sample_format sample_world first_ready
    (mkConsole ["  "; "example.org"] [])
  = mkMainRun Exits
      (mkConsole ["example.org"]
         ([] ++ ["=== HTTP Frequency ===" +:+ newline;
                 "Digite as URLs que você quer testar." +:+ newline;
                 ("Uma por linha. Deixe em branco e aperte Enter para finalizar."
                    +:+ newline) +:+ newline;
                 "URL: ";
                 "Nenhuma URL informada. Encerrando." +:+ newline]))
      [].
Proof.
  apply (main_without_urls sample_int sample_float sample_str_of_float sample_format
           sample_world first_ready "  " ["example.org"] []).
  reflexivity.
Defined.


Lemma main_unchecked_concurrency_witness :
  let m := main sample_int sample_float sample_str_of_float sample_format sample_world
             first_ready (mkConsole ["example.org"; ""; "-1"; ""] []) in
  main_end m = Crashes ValueError /\ main_requests m = [].
Proof.
  apply (main_unchecked_concurrency sample_int sample_float sample_str_of_float sample_format
           sample_world first_ready ["example.org"] "" "-1" "" [] [] (-1)).
  - repeat (constructor; [by vm_compute|]). constructor.
  - discriminate.
  - reflexivity.
  - by vm_compute.
  - reflexivity.
  - lia.
Defined.

Lemma main_probes_each_url_once_witness :
  let m := main sample_int sample_float sample_str_of_float sample_format sample_world
             (fun t => t)
             (mkConsole ["example.org"; "down.example"; " example.org"; ""; ""; ""] []) in
  main_end m = Exits /\
  main_requests m ≡ₚ [("GET", "https://example.org"); ("GET", "https://down.example")] /\
  NoDup (main_requests m).
Proof.
  apply (main_probes_each_url_once sample_int sample_float sample_str_of_float sample_format
           sample_world (fun t => t) ["example.org"; "down.example"; " example.org"] ""
           "" "" [] []).
  - repeat (constructor; [by vm_compute|]). constructor.
  - discriminate.
  - reflexivity.
  - by vm_compute.
  - apply sample_world_captured. apply (bool_decide_unpack _). by vm_compute.
Defined.

Lemma main_input_ends_early_witness :
  main_end (main sample_int sample_float sample_str_of_float sample_format sample_world
              first_ready (mkConsole ["example.org"] [])) = Crashes EOFError /\
  main_end (main sample_int sample_float sample_str_of_float sample_format sample_world
              first_ready (mkConsole (["example.org"] ++ [""; "3"]) [])) = Crashes EOFError.
Proof.
  destruct (main_input_ends_early sample_int sample_float sample_str_of_float sample_format
              sample_world first_ready ["example.org"] "" "3" []) as [[H1 _] H2].
  - repeat (constructor; [by vm_compute|]). constructor.
  - reflexivity.
  - split; [exact H1|]. destruct H2 as [_ [H3 _]]; [discriminate|exact H3].
Defined.

(** ** More on the event loop and on [fetch_one] *)

Lemma nsteps_remaining w client method urls n s s' :
  nsteps (step w client method urls) n s s' ->
  n + remaining (tasks s') = remaining (tasks s).
Proof.
  induction 1 as [|n s1 s2 s3 [i Hi] _ IH]; [done|].
  apply advance_remaining in Hi. lia.
Qed.

(** X18. The loop cannot run for ever: whatever the schedule and the
    answers, and also after a task has failed, the tasks of a run make at most
    two moves for each URL. *)
Theorem event_loop_moves_bounded w client method urls value n s :
  nsteps (step w client method urls) n (create_tasks urls value) s ->
  n <= 2 * length urls.
Proof.
  intros Hn. apply nsteps_remaining in Hn. simpl in Hn.
  rewrite remaining_all_waiting in Hn. lia.
Qed.

Lemma event_loop_moves_bounded_witness : 2 <= 2 * 2.
Proof.
  apply (event_loop_moves_bounded sample_world (make_client 5) "GET"
           ["https://example.org"; "https://example.com:abc"] 1 2
           (mkLoop 1 [Waiting; Failed InvalidURL] [("GET", "https://example.com:abc")])).
  eapply nsteps_l; [exists 1; reflexivity|].
  eapply nsteps_l; [exists 1; reflexivity|].
  apply nsteps_O.
Defined.

(** X19. Each result [run_probe] returns is the one [fetch_one] gives for
    the URL at the same place of the list: the result of a probe depends on
    the answer to its own request only, and a probe that fails changes
    nothing in the results of the others. *)
Theorem run_probe_results_pointwise w sched urls concurrency timeout method rs :
  run_probe w sched urls concurrency timeout method = Finished (Return rs) ->
  forall i u, urls !! i = Some u ->
    exists r, rs !! i = Some r /\
      fetch_one w i (make_client timeout) u method = Return r.
Proof.
  unfold run_probe. intros Hrun i u Hu.
  destruct (run_probe_loop w sched urls concurrency timeout method) as [x s] eqn:E.
  simpl in Hrun. subst x.
  apply run_probe_loop_returned in E as (_ & _ & _ & Hlen & Hrs).
  assert (is_Some (rs !! i)) as [r Hr].
  { apply lookup_lt_is_Some. rewrite Hlen. by eapply lookup_lt_Some. }
  exists r. split; [done|].
  destruct (Hrs _ _ Hr) as (u' & Hu' & Hf). congruence.
Qed.

Lemma run_probe_results_pointwise_witness :
  exists r,
    [mkProbeResult "https://down.example" false None None None None (Some "ConnectError");
     mkProbeResult "https://example.org" true (Some 200%Z) (Some (30 # 100)) (Some 0%Z)
       (Some "https://example.org") None] !! 1 = Some r /\
    fetch_one sample_world 1 (make_client 5) "https://example.org" "GET" = Return r.
Proof.
  apply (run_probe_results_pointwise sample_world first_ready
           ["https://down.example"; "https://example.org"] 1 5 "GET").
  - by vm_compute.
  - reflexivity.
Defined.

(** X20. With a clock that does not go back, the [elapsed_s] of a result of
    [fetch_one] is not negative. *)
Theorem fetch_one_elapsed_nonneg w k client u method r t :
  (perf_counter w k 0 <= perf_counter w k 1)%Q ->
  fetch_one w k client u method = Return r -> elapsed_s r = Some t -> (0 <= t)%Q.
Proof.
  intros Hclock. unfold fetch_one. destruct (request w client method u k) as [resp|e].
  - intros [= <-] [= <-]. by apply Qle_minus_iff in Hclock.
  - destruct (is_HTTPError e); [|done]. by intros [= <-].
Qed.

Lemma fetch_one_elapsed_nonneg_witness : (0 <= (5 # 10) - (2 # 10))%Q.
Proof.
  apply (fetch_one_elapsed_nonneg sample_world 2 (make_client 5) "https://example.org" "GET"
           (mkProbeResult "https://example.org" true (Some 200%Z)
              (Some ((5 # 10) - (2 # 10))%Q) (Some 0%Z) (Some "https://example.org") None)).
  - by vm_compute.
  - reflexivity.
  - reflexivity.
Defined.

(** X21. The scheme rule changes nothing in what it has produced: an entry
    to which "https://" was added, or that had a scheme, is left as it is
    when the rule is applied again. *)
Theorem add_scheme_idempotent linha : add_scheme (add_scheme linha) = add_scheme linha.
Proof.
  pose proof (add_scheme_startswith linha) as H.
  unfold add_scheme at 1. by rewrite H.
Qed.
